(** * Masking report: log statistics, masked-region scan and BED output

    A shallow embedding of [scripts/generate_report.py]: the two log
    parsers ([parse_mask_log], [parse_map_log]), the scan for runs of [N]
    ([find_masked_regions]), the BED writer ([generate_bed_file]) and the
    per-sample loop of [main].

    Conventions.
    - A Python [str] is a [string]; its characters are the code points
      below 256.
    - A Python [int] is a [Z].
    - A Python [float] obtained from decimal text is the rational number
      the text denotes, kept in lowest terms ([Q] after [Qred]); CPython
      rounds that number to the nearest binary64.
    - A [dict] with string keys whose order is not observed is a
      [gmap string _]; [stats_dict] and [regions_dict], whose insertion
      order is observed by the report, are association lists. *)

From Stdlib Require Import Ascii String QArith.
From stdpp Require Import gmap strings list fin_maps pretty.

Local Open Scope Z_scope.

(** ** Characters *)

Definition code (c : ascii) : nat := nat_of_ascii c.

Definition TAB : string := String (ascii_of_nat 9) "".
Definition NL : string := String (ascii_of_nat 10) "".

(** [str.upper] on one character.  Only the letters [a]-[z] are mapped;
    no other code point has an upper-case form equal to a letter of
    [A]-[Z], so the comparison with ["N"] in the scanner is unaffected. *)
Definition upper (c : ascii) : ascii :=
  if (97 <=? code c)%nat && (code c <=? 122)%nat
  then ascii_of_nat (code c - 32)
  else c.

Fixpoint string_take (n : nat) (s : string) : string :=
  match n, s with
  | S n', String c s' => String c (string_take n' s')
  | _, _ => ""
  end.

Fixpoint string_drop (n : nat) (s : string) : string :=
  match n, s with
  | S n', String _ s' => string_drop n' s'
  | _, _ => s
  end.

(** ** Exceptions *)

Inductive exn :=
| ValueError (text : string)
| OSError (filename : string).

Inductive result (A : Type) :=
| Ok (a : A)
| Raise (e : exn).
Arguments Ok {A} a.
Arguments Raise {A} e.

Definition rbind {A B} (r : result A) (k : A → result B) : result B :=
  match r with
  | Ok a => k a
  | Raise e => Raise e
  end.

Declare Scope py_scope.
Delimit Scope py_scope with py.
Notation "x <~ r ; k" := (rbind r (λ x, k))
  (at level 100, r at next level, k at level 200, right associativity)
  : py_scope.
Local Open Scope py_scope.

Definition raises {A} (r : result A) : bool :=
  match r with Ok _ => false | Raise _ => true end.

(** ** Regular expressions

    The seven patterns of the parsers are sequences of one-character
    classes, each taken once, one or more times greedily ([+]) or zero or
    more times lazily ([*?]), some of them inside a capture group.  The
    matcher explores the alternatives in the order of Python's
    backtracking engine: a greedy repeat tries the longest run first, a
    lazy one the shortest. *)

Inductive cls :=
| Char (c : ascii)      (* a literal character *)
| Space                 (* \s *)
| Digit                 (* \d *)
| DigitOrDot            (* [\d.] *)
| AnyButNewline.        (* . *)

Inductive quant :=
| Once
| Plus                  (* + *)
| LazyStar.             (* *? *)

Record node := Node { n_cls : cls; n_quant : quant; n_capture : bool }.

Definition is_digit (c : ascii) : bool :=
  (48 <=? code c)%nat && (code c <=? 57)%nat.

(** Whitespace of [str] patterns, among the code points below 256. *)
Definition is_space (c : ascii) : bool :=
  let n := code c in
  ((9 <=? n)%nat && (n <=? 13)%nat) || ((28 <=? n)%nat && (n <=? 32)%nat)
  || (n =? 133)%nat || (n =? 160)%nat.

Definition cls_match (k : cls) (c : ascii) : bool :=
  match k with
  | Char c' => Ascii.eqb c c'
  | Space => is_space c
  | Digit => is_digit c
  | DigitOrDot => is_digit c || Ascii.eqb c "."
  | AnyButNewline => negb (code c =? 10)%nat
  end.

(** Length of the longest prefix of [s] made of characters of class [k]. *)
Fixpoint span (k : cls) (s : string) : nat :=
  match s with
  | String c s' => if cls_match k c then S (span k s') else O
  | EmptyString => O
  end.

Fixpoint first_some {A B} (f : A → option B) (l : list A) : option B :=
  match l with
  | [] => None
  | x :: l' => match f x with Some y => Some y | None => first_some f l' end
  end.

(** Repetition counts in the order the engine tries them. *)
Definition candidates (q : quant) (n : nat) : list nat :=
  match q with
  | Once => if (1 <=? n)%nat then [1%nat] else []
  | Plus => rev (seq 1 n)
  | LazyStar => seq 0 (S n)
  end.

(** [re_match pat s]: match [pat] at the start of [s]; the result is the
    text of the capture groups, in order. *)
Fixpoint re_match (pat : list node) (s : string) : option (list string) :=
  match pat with
  | [] => Some []
  | nd :: pat' =>
      first_some
        (λ k, match re_match pat' (string_drop k s) with
              | Some groups =>
                  Some (if n_capture nd then string_take k s :: groups
                        else groups)
              | None => None
              end)
        (candidates (n_quant nd) (span (n_cls nd) s))
  end.

(** [re.search]: the match at the leftmost position that has one. *)
Fixpoint re_search (pat : list node) (s : string) : option (list string) :=
  match re_match pat s with
  | Some groups => Some groups
  | None =>
      match s with
      | String _ s' => re_search pat s'
      | EmptyString => None
      end
  end.

(** [m.group(n)] for [n >= 1]. *)
Definition group (m : list string) (n : nat) : string :=
  nth (n - 1) m "".

Definition lit (s : string) : list node :=
  map (λ c, Node (Char c) Once false) (list_ascii_of_string s).

(** ** [int] and [float] on the captured text *)

Definition digit_value (c : ascii) : Z := Z.of_nat (code c - 48).

Fixpoint all_digits (s : string) : bool :=
  match s with
  | String c s' => is_digit c && all_digits s'
  | EmptyString => true
  end.

Fixpoint digits_value (acc : Z) (s : string) : Z :=
  match s with
  | String c s' => digits_value (10 * acc + digit_value c) s'
  | EmptyString => acc
  end.

(** [int(text)] on the texts that reach it: the patterns capture runs of
    digits only ([re_match_groups_wf] below), so signs, blanks and
    underscores are left out, and any other text is rejected.  Python's
    integers are unbounded; the limit that recent interpreters put on the
    number of digits they convert is a setting of the interpreter and is
    not modelled. *)
Definition int (text : string) : result Z :=
  if all_digits text && negb (String.eqb text "")
  then Ok (digits_value 0 text)
  else Raise (ValueError text).

(** [float(text)] on the texts that reach it, which are made of digits
    and dots (what [[\d.]+] captures): accepted when there is at most one
    dot and at least one digit, as in [15.000], [.5] and [5.]; rejected
    otherwise, as in [.] and [1.2.3]. *)
Definition float (text : string) : result Q :=
  let n := span Digit text in
  let ip := string_take n text in
  match string_drop n text with
  | EmptyString =>
      if String.eqb ip "" then Raise (ValueError text)
      else Ok (Qred (Qmake (digits_value 0 ip) 1))
  | String c fp =>
      if Ascii.eqb c "." && all_digits fp
         && negb (String.eqb ip "" && String.eqb fp "")
      then Ok (Qred (Qmake (digits_value 0 (ip +:+ fp))
                           (Z.to_pos (10 ^ Z.of_nat (String.length fp)))))
      else Raise (ValueError text)
  end.

(** ** Statistics records *)

Inductive value :=
| VInt (z : Z)
| VFloat (q : Q).

(** ** Files *)

(** A path that exists is either readable, with its text, or not (no
    permission, a directory). *)
Inductive file :=
| Unreadable
| Readable (content : string).

Definition os_path_exists (fs : gmap string file) (path : string) : bool :=
  bool_decide (is_Some (fs !! path)).

(** [with open(path, 'r') as f: f.read()]. *)
Definition open_read (fs : gmap string file) (path : string)
  : result string :=
  match fs !! path with
  | Some (Readable content) => Ok content
  | _ => Raise (OSError path)
  end.

Fixpoint last_char (s : string) : option ascii :=
  match s with
  | EmptyString => None
  | String c EmptyString => Some c
  | String _ s' => last_char s'
  end.

(** [os.path.join] of two components (POSIX). *)
Definition os_path_join (a b : string) : string :=
  match b with
  | String "/" _ => b
  | _ =>
      match last_char a with
      | None => b
      | Some "/"%char => a +:+ b
      | Some _ => a +:+ "/" +:+ b
      end
  end.

(** ** The log parsers *)

Definition ref_bases_re : list node :=
  lit "Ref Bases:" ++ [Node Space Plus false; Node Digit Plus true].

Definition low_complexity_re : list node :=
  lit "Low Complexity Bases:" ++ [Node Space Plus false; Node Digit Plus true].

Definition sam_masked_re : list node :=
  lit "Sam Bases Masked:" ++ [Node Space Plus false; Node Digit Plus true].

Definition total_masked_re : list node :=
  lit "Total Bases Masked:" ++
  [Node Space Plus false; Node Digit Plus true] ++ lit "/" ++
  [Node Digit Plus true; Node Space Plus false; Node DigitOrDot Plus true] ++
  lit "%".

Definition reads_used_re : list node :=
  lit "Reads Used:" ++ [Node Space Plus false; Node Digit Plus true].

Definition mapped_re : list node :=
  lit "mapped:" ++
  [Node Space Plus false; Node DigitOrDot Plus true] ++ lit "%" ++
  [Node Space Plus false; Node Digit Plus true].

Definition match_rate_re : list node :=
  lit "Match Rate:" ++
  [Node Space Plus false; Node AnyButNewline LazyStar false;
   Node Space Plus false; Node DigitOrDot Plus true] ++ lit "%".

(** [if m: stats[key] = int(m.group(1))]. *)
Definition int_field (pat : list node) (key : string) (content : string)
    (stats : gmap string value) : result (gmap string value) :=
  match re_search pat content with
  | Some m => v <~ int (group m 1); Ok (<[key := VInt v]> stats)
  | None => Ok stats
  end.

Definition parse_mask_log (fs : gmap string file) (log_file : string)
  : result (gmap string value) :=
  let stats : gmap string value := ∅ in
  content <~ open_read fs log_file;
  stats <~ int_field ref_bases_re "total_bases" content stats;
  stats <~ int_field low_complexity_re "low_complexity_bases" content stats;
  stats <~ int_field sam_masked_re "viral_masked_bases" content stats;
  match re_search total_masked_re content with
  | Some m =>
      v <~ int (group m 1);
      let stats := <["total_masked_bases" := VInt v]> stats in
      p <~ float (group m 3);
      Ok (<["masking_percentage" := VFloat p]> stats)
  | None => Ok stats
  end.

Definition parse_map_log (fs : gmap string file) (log_file : string)
  : result (gmap string value) :=
  let stats : gmap string value := ∅ in
  content <~ open_read fs log_file;
  stats <~ int_field reads_used_re "total_reads" content stats;
  stats <~ match re_search mapped_re content with
           | Some m =>
               p <~ float (group m 1);
               let stats := <["mapped_percentage" := VFloat p]> stats in
               v <~ int (group m 2);
               Ok (<["mapped_reads" := VInt v]> stats)
           | None => Ok stats
           end;
  match re_search match_rate_re content with
  | Some m =>
      p <~ float (group m 1);
      Ok (<["match_rate" := VFloat p]> stats)
  | None => Ok stats
  end.

(** ** Sequence records and masked regions *)

(** What [SeqIO.parse] yields for one FASTA entry: [record.id] and
    [str(record.seq)]. *)
Record SeqRecord := { rec_id : string; rec_seq : string }.

(** The dict appended to [regions]. *)
Record region := {
  r_chrom : string;
  r_start : Z;
  r_end : Z;
  r_length : Z
}.

(** Local variables of the inner loop of [find_masked_regions]; [regions]
    is the list shared by all records. *)
Record scan_state := {
  in_n_region : bool;
  start : Z;
  regions : list region
}.

Fixpoint enumerate_from {A} (i : Z) (l : list A) : list (Z * A) :=
  match l with
  | [] => []
  | x :: l' => (i, x) :: enumerate_from (i + 1) l'
  end.

Definition enumerate {A} (l : list A) : list (Z * A) := enumerate_from 0 l.

Definition len (s : string) : Z := Z.of_nat (String.length s).

(** Body of [for i, base in enumerate(seq)]. *)
Definition scan_step (chrom : string) (st : scan_state) (ib : Z * ascii)
  : scan_state :=
  let '(i, base) := ib in
  if Ascii.eqb (upper base) "N" then
    if negb (in_n_region st) then
      {| in_n_region := true; start := i; regions := regions st |}
    else st
  else
    if in_n_region st then
      {| in_n_region := false;
         start := start st;
         regions := regions st ++
           [{| r_chrom := chrom; r_start := start st; r_end := i;
               r_length := i - start st |}] |}
    else st.

(** Body of [for record in SeqIO.parse(...)]: the loop over the letters
    and the flush of a run that reaches the end of the sequence. *)
Definition scan_record (regions0 : list region) (record : SeqRecord)
  : list region :=
  let chrom := rec_id record in
  let st := fold_left (scan_step chrom)
              (enumerate (list_ascii_of_string (rec_seq record)))
              {| in_n_region := false; start := 0; regions := regions0 |} in
  if in_n_region st then
    regions st ++
      [{| r_chrom := chrom; r_start := start st; r_end := len (rec_seq record);
          r_length := len (rec_seq record) - start st |}]
  else regions st.

(** The outer loop of [find_masked_regions], over the records that
    [SeqIO.parse] yields. *)
Definition scan_records (records : list SeqRecord) : list region :=
  fold_left scan_record records [].

(** ** The BED writer *)

(** [str(n)] for an [int]. *)
Definition str (n : Z) : string := pretty n.

(** [f.write(text)] on the buffer of an open file. *)
Definition write (f : string) (text : string) : string := f +:+ text.

(** Body of [for i, region in enumerate(regions)]. *)
Definition bed_step (f : string) (ir : Z * region) : string :=
  let '(i, region) := ir in
  write f
    (r_chrom region +:+ TAB +:+ str (r_start region) +:+ TAB +:+
     str (r_end region) +:+ TAB +:+
     "masked_region_" +:+ str (i + 1) +:+ TAB +:+
     str (r_length region) +:+ TAB +:+ "." +:+ NL).

(** [generate_bed_file]: [open(output_file, 'w')] starts from an empty
    buffer whatever the file held before; the file holds the buffer when
    the [with] block ends.  Opening for writing is taken to succeed
    ([main] creates the output directory first). *)
Definition generate_bed_file (regions : list region) (output_file : string)
    (fs : gmap string file) : gmap string file :=
  let f := "" in
  let f := write f ("# BED file of masked regions" +:+ NL) in
  let f := write f ("# chrom" +:+ TAB +:+ "start" +:+ TAB +:+ "end" +:+ TAB +:+
                    "name" +:+ TAB +:+ "score" +:+ TAB +:+ "strand" +:+ NL) in
  let f := fold_left bed_step (enumerate regions) f in
  <[output_file := Readable f]> fs.

(** ** Insertion-ordered dictionaries *)

(** [d[k] = v]: a key that is present keeps its position. *)
Fixpoint dict_set {V} (k : string) (v : V) (d : list (string * V))
  : list (string * V) :=
  match d with
  | [] => [(k, v)]
  | (k', v') :: d' =>
      if decide (k = k') then (k, v) :: d' else (k', v') :: dict_set k v d'
  end.

Fixpoint dict_lookup {V} (k : string) (d : list (string * V)) : option V :=
  match d with
  | [] => None
  | (k', v') :: d' => if decide (k = k') then Some v' else dict_lookup k d'
  end.

(** [d.get(k, default)]. *)
Definition dict_get {V} (k : string) (default : V) (d : list (string * V)) : V :=
  match dict_lookup k d with Some v => v | None => default end.

Definition dict_keys {V} (d : list (string * V)) : list string := d.*1.

(** [stats.update(other)]. *)
Definition dict_update (stats other : gmap string value) : gmap string value :=
  other ∪ stats.

(** ** The per-sample loop of [main] *)

(** What the loop reads and changes: the two dictionaries, the file
    system and the lines printed. *)
Record main_state := {
  stats_dict : list (string * gmap string value);
  regions_dict : list (string * list region);
  fs : gmap string file;
  stdout : list string
}.

(** A computation that changes the state and returns or raises; what it
    changed before raising stays changed. *)
Definition M (A : Type) : Type := main_state → main_state * result A.

Definition ret {A} (a : A) : M A := λ st, (st, Ok a).

Definition bind {A B} (m : M A) (k : A → M B) : M B :=
  λ st, match m st with
        | (st', Ok a) => k a st'
        | (st', Raise e) => (st', Raise e)
        end.

Definition lift {A} (f : main_state → result A) : M A := λ st, (st, f st).

Definition modify (f : main_state → main_state) : M unit := λ st, (f st, Ok tt).

Notation "x <- m ;; k" := (bind m (λ x, k))
  (at level 100, m at next level, k at level 200, right associativity)
  : py_scope.
Notation "m ;; k" := (bind m (λ _, k))
  (at level 100, k at level 200, right associativity) : py_scope.

Definition print (line : string) : M unit :=
  modify (λ st, {| stats_dict := stats_dict st; regions_dict := regions_dict st;
                   fs := fs st; stdout := stdout st ++ [line] |}).

Definition set_stats (sample : string) (stats : gmap string value) : M unit :=
  modify (λ st, {| stats_dict := dict_set sample stats (stats_dict st);
                   regions_dict := regions_dict st;
                   fs := fs st; stdout := stdout st |}).

Definition set_regions (sample : string) (regions : list region) : M unit :=
  modify (λ st, {| stats_dict := stats_dict st;
                   regions_dict := dict_set sample regions (regions_dict st);
                   fs := fs st; stdout := stdout st |}).

Definition write_bed (regions : list region) (bed_file : string) : M unit :=
  modify (λ st, {| stats_dict := stats_dict st; regions_dict := regions_dict st;
                   fs := generate_bed_file regions bed_file (fs st);
                   stdout := stdout st |}).

Fixpoint for_each {A} (body : A → M unit) (l : list A) : M unit :=
  match l with
  | [] => ret tt
  | x :: l' => body x ;; for_each body l'
  end.

Section Main.

(** [SeqIO.parse(_, "fasta")] of Biopython, from the text of the file to
    its records. *)
Variable SeqIO_parse : string → list SeqRecord.

Definition find_masked_regions (fs : gmap string file) (fasta_file : string)
  : result (list region) :=
  content <~ open_read fs fasta_file;
  Ok (scan_records (SeqIO_parse content)).

(** The two steps of [main] that produce the BED file of one sample:
    the scan of the masked FASTA file and the writing of its regions. *)
Definition extract_regions (fs : gmap string file)
    (masked_fasta bed_file : string) : result (gmap string file) :=
  regions <~ find_masked_regions fs masked_fasta;
  Ok (generate_bed_file regions bed_file fs).

(** The command-line arguments. *)
Record args := {
  log_dir : string;
  results_dir : string;
  output_dir : string;
  samples : list string
}.

(** Body of [for sample in args.samples]. *)
Definition process_sample (a : args) (sample : string) : M unit :=
  print ("Processing sample: " +:+ sample) ;;
  let mask_log := os_path_join (log_dir a) (sample +:+ "_mask.log") in
  let map_log := os_path_join (log_dir a) (sample +:+ "_map.log") in
  let stats : gmap string value := ∅ in
  stats <- lift (λ st,
             if os_path_exists (fs st) mask_log
             then parsed <~ parse_mask_log (fs st) mask_log;
                  Ok (dict_update stats parsed)
             else Ok stats) ;;
  stats <- lift (λ st,
             if os_path_exists (fs st) map_log
             then parsed <~ parse_map_log (fs st) map_log;
                  Ok (dict_update stats parsed)
             else Ok stats) ;;
  set_stats sample stats ;;
  let masked_fasta :=
    os_path_join (results_dir a) (sample +:+ "_masked.fasta") in
  exists_fasta <- lift (λ st, Ok (os_path_exists (fs st) masked_fasta)) ;;
  if exists_fasta : bool then
    regions <- lift (λ st, find_masked_regions (fs st) masked_fasta) ;;
    set_regions sample regions ;;
    let bed_file :=
      os_path_join (output_dir a) (sample +:+ "_masked_regions.bed") in
    write_bed regions bed_file ;;
    print ("Generated BED file: " +:+ bed_file)
  else ret tt.

(** [main] from the creation of the two dictionaries to the end of the
    loop over the samples. *)
Definition main_loop (a : args) (fs0 : gmap string file)
  : main_state * result unit :=
  for_each (process_sample a) (samples a)
    {| stats_dict := []; regions_dict := []; fs := fs0; stdout := [] |}.

End Main.

(** ** Notions used in the statements *)

(** The scanner's test [base.upper() == 'N']. *)
Definition is_n (c : ascii) : bool := Ascii.eqb (upper c) "N".

Definition mk_region (chrom : string) (s e : Z) : region :=
  {| r_chrom := chrom; r_start := s; r_end := e; r_length := e - s |}.

(** The regions that the scan of the letters [l] appends, when it is at
    offset [i] with flag [b] and run start [s], for a sequence of length
    [total]. *)
Fixpoint runs (chrom : string) (total : Z) (l : list ascii) (i : Z)
    (b : bool) (s : Z) : list region :=
  match l with
  | [] => if b then [mk_region chrom s total] else []
  | c :: l' =>
      if is_n c then runs chrom total l' (i + 1) true (if b then s else i)
      else (if b then [mk_region chrom s i] else []) ++
           runs chrom total l' (i + 1) false s
  end.

(** Intervals of one sequence of length [seq_len]: well formed, inside
    the sequence, strictly increasing in [start] and pairwise disjoint. *)
Definition intervals_ok (seq_len : Z) (rs : list region) : Prop :=
  Forall (λ r, 0 ≤ r_start r ∧ r_length r = r_end r - r_start r ∧
               0 < r_length r ∧ r_end r ≤ seq_len) rs ∧
  ∀ (i j : nat) ri rj, (i < j)%nat → rs !! i = Some ri → rs !! j = Some rj →
    r_start ri < r_start rj ∧ r_end ri ≤ r_start rj.

(** The same, as a chain: every interval starts at [lo] or later and the
    next one starts after its end. *)
Fixpoint chain (lo total : Z) (rs : list region) : Prop :=
  match rs with
  | [] => True
  | r :: rs' =>
      lo ≤ r_start r ∧ r_start r < r_end r ∧ r_end r ≤ total ∧
      r_length r = r_end r - r_start r ∧ chain (r_end r + 1) total rs'
  end.

(** Position [j] lies in one of the intervals. *)
Definition covered (j : Z) (rs : list region) : Prop :=
  ∃ r, r ∈ rs ∧ r_start r ≤ j < r_end r.

(** A letter that counts as masked: [N] in either case. *)
Definition masked_letter (c : ascii) : Prop := c = "N"%char ∨ c = "n"%char.

(** What [scan_record] returns from the state its loop ends in. *)
Definition flush (chrom : string) (total : Z) (st : scan_state) : list region :=
  if in_n_region st then regions st ++ [mk_region chrom (start st) total]
  else regions st.

(** The phrase [label] occurs somewhere in [content]. *)
Definition occurs (label content : string) : Prop :=
  ∃ pre post, content = pre +:+ label +:+ post.

(** [pat] matches [content] at offset [length pre] with groups [m], and at
    no smaller offset. *)
Definition first_match (pat : list node) (content : string)
    (m : list string) : Prop :=
  ∃ pre rest,
    content = pre +:+ rest ∧ re_match pat rest = Some m ∧
    ∀ pre1 pre2, pre = pre1 +:+ pre2 → pre2 ≠ "" →
                 re_match pat (pre2 +:+ rest) = None.

Fixpoint all_cls (k : cls) (s : string) : bool :=
  match s with
  | String c s' => cls_match k c && all_cls k s'
  | EmptyString => true
  end.

(** Shape of the groups of a match of [pat]: one text per capturing node,
    made of characters of the node's class, and not empty unless the
    node may repeat zero times. *)
Fixpoint groups_wf (pat : list node) (groups : list string) : Prop :=
  match pat with
  | [] => groups = []
  | nd :: pat' =>
      if n_capture nd then
        match groups with
        | g :: groups' =>
            all_cls (n_cls nd) g = true ∧
            (n_quant nd ≠ LazyStar → g ≠ "") ∧
            groups_wf pat' groups'
        | [] => False
        end
      else groups_wf pat' groups
  end.

(** One statistic of a log: its key in the record, the label phrase its
    pattern starts with, the pattern, the group that holds its text and
    whether the text is converted with [float] or with [int]. *)
Record field := Field {
  f_key : string;
  f_label : string;
  f_pat : list node;
  f_group : nat;
  f_float : bool
}.

Definition mask_fields : list field :=
  [ Field "total_bases" "Ref Bases:" ref_bases_re 1 false;
    Field "low_complexity_bases" "Low Complexity Bases:" low_complexity_re 1 false;
    Field "viral_masked_bases" "Sam Bases Masked:" sam_masked_re 1 false;
    Field "total_masked_bases" "Total Bases Masked:" total_masked_re 1 false;
    Field "masking_percentage" "Total Bases Masked:" total_masked_re 3 true ].

Definition map_fields : list field :=
  [ Field "total_reads" "Reads Used:" reads_used_re 1 false;
    Field "mapped_percentage" "mapped:" mapped_re 1 true;
    Field "mapped_reads" "mapped:" mapped_re 2 false;
    Field "match_rate" "Match Rate:" match_rate_re 1 true ].

(** The value of a statistic read from the groups [m] of a match. *)
Definition value_of (f : field) (m : list string) : option value :=
  if f_float f then
    match float (group m (f_group f)) with
    | Ok p => Some (VFloat p)
    | Raise _ => None
    end
  else Some (VInt (digits_value 0 (group m (f_group f)))).

(** The value of a statistic in a log text, from the leftmost match of
    its own pattern alone. *)
Definition field_value (f : field) (content : string) : option value :=
  match re_search (f_pat f) content with
  | Some m => value_of f m
  | None => None
  end.

(** [float] accepts the percentage texts that the patterns of [fields]
    capture in [content]. *)
Definition floats_accepted (fields : list field) (content : string) : Prop :=
  ∀ f m, f ∈ fields → f_float f = true →
         re_search (f_pat f) content = Some m →
         raises (float (group m (f_group f))) = false.

Definition add_int (pat : list node) (key : string) (content : string)
    (stats : gmap string value) : gmap string value :=
  match re_search pat content with
  | Some m => <[key := VInt (digits_value 0 (group m 1))]> stats
  | None => stats
  end.

(** The line of a BED file for the [n]-th interval (counting from 1):
    six columns separated by tabs. *)
Definition bed_line (n : Z) (r : region) : string :=
  r_chrom r +:+ TAB +:+ str (r_start r) +:+ TAB +:+ str (r_end r) +:+ TAB +:+
  "masked_region_" +:+ str n +:+ TAB +:+ str (r_length r) +:+ TAB +:+
  "." +:+ NL.

Definition bed_header_1 : string := "# BED file of masked regions" +:+ NL.

Definition bed_header_2 : string :=
  "# chrom" +:+ TAB +:+ "start" +:+ TAB +:+ "end" +:+ TAB +:+ "name" +:+ TAB +:+
  "score" +:+ TAB +:+ "strand" +:+ NL.

Definition concat_strings (l : list string) : string :=
  foldr String.append "" l.

(** The paths that [main] derives from a sample name. *)
Definition mask_log_path (a : args) (sample : string) : string :=
  os_path_join (log_dir a) (sample +:+ "_mask.log").
Definition map_log_path (a : args) (sample : string) : string :=
  os_path_join (log_dir a) (sample +:+ "_map.log").
Definition masked_fasta_path (a : args) (sample : string) : string :=
  os_path_join (results_dir a) (sample +:+ "_masked.fasta").
Definition bed_path (a : args) (sample : string) : string :=
  os_path_join (output_dir a) (sample +:+ "_masked_regions.bed").

(** The statistics of one sample, as the loop body builds them from the
    two logs. *)
Definition sample_stats (fs : gmap string file) (a : args) (sample : string)
  : result (gmap string value) :=
  stats <~ (if os_path_exists fs (mask_log_path a sample)
            then parsed <~ parse_mask_log fs (mask_log_path a sample);
                 Ok (dict_update ∅ parsed)
            else Ok ∅);
  if os_path_exists fs (map_log_path a sample)
  then parsed <~ parse_map_log fs (map_log_path a sample);
       Ok (dict_update stats parsed)
  else Ok stats.

(** The names of [l] in the order of their first occurrence: the key
    order of a [dict] filled by assigning to the names of [l] in turn. *)
Definition first_occurrences (l : list string) : list string :=
  fold_left (λ acc s, if decide (s ∈ acc) then acc else acc ++ [s]) l [].

(** A log that is absent, or readable with percentages that [float]
    accepts. *)
Definition log_ok (fields : list field) (fs : gmap string file)
    (path : string) : Prop :=
  fs !! path = None ∨
  ∃ content, fs !! path = Some (Readable content) ∧
             floats_accepted fields content.

Definition fasta_ok (fs : gmap string file) (path : string) : Prop :=
  fs !! path = None ∨ ∃ content, fs !! path = Some (Readable content).

Definition sample_ok (fs : gmap string file) (a : args) (sample : string)
  : Prop :=
  log_ok mask_fields fs (mask_log_path a sample) ∧
  log_ok map_fields fs (map_log_path a sample) ∧
  fasta_ok fs (masked_fasta_path a sample).

(** Paths that the loop never writes: those not ending in [d]. *)
Definition not_bed (path : string) : Prop := last_char path ≠ Some "d"%char.

(** A stand-in for [SeqIO.parse] in the examples: the whole text is the
    sequence of a single record named [chr1]. *)
Definition one_record (content : string) : list SeqRecord :=
  [{| rec_id := "chr1"; rec_seq := content |}].

(** Files and arguments of the examples. *)
Definition demo_b_mask_log : string :=
  "Ref Bases:   1000" +:+ NL +:+
  "Total Bases Masked: 150/1000 15.000%" +:+ NL +:+
  "Ref Bases: 2000" +:+ NL.

Definition demo_c_map_log : string :=
  "Reads Used: 40" +:+ NL +:+ "mapped: 12.5%  5" +:+ NL +:+
  "mapped: 50.0% 20" +:+ NL.

Definition demo_fs : gmap string file :=
  {[ "logs/a_mask.log" := Unreadable;
     "logs/b_mask.log" := Readable demo_b_mask_log;
     "logs/c_map.log" := Readable demo_c_map_log;
     "res/b_masked.fasta" := Readable "ATNNNCGNAT";
     "res/c_masked.fasta" := Readable "nnNN" ]}.

Definition demo_args (names : list string) : args :=
  {| log_dir := "logs"; results_dir := "res"; output_dir := "out";
     samples := names |}.

(** Decision procedures for the two hypotheses on label phrases. *)
Fixpoint string_prefix (p s : string) : bool :=
  match p, s with
  | EmptyString, _ => true
  | String a p', String b s' => Ascii.eqb a b && string_prefix p' s'
  | String _ _, EmptyString => false
  end.

Fixpoint occursb (label content : string) : bool :=
  string_prefix label content ||
  match content with
  | String _ content' => occursb label content'
  | EmptyString => false
  end.

(** [label] starts at some offset inside [pre] in the text [pre +:+ rest]. *)
Fixpoint starts_inside (label pre rest : string) : bool :=
  match pre with
  | EmptyString => false
  | String _ pre' =>
      string_prefix label (pre +:+ rest) || starts_inside label pre' rest
  end.

(** * Properties *)

(** ** The scanner *)

Lemma is_n_spec c : is_n c = true ↔ masked_letter c.
Proof.
  unfold masked_letter.
  destruct c as [[] [] [] [] [] [] [] []]; vm_compute;
    split; intros H; try discriminate; auto;
    destruct H as [H|H]; discriminate.
Qed.

Lemma length_chars s : length (list_ascii_of_string s) = String.length s.
Proof. induction s; simpl; congruence. Qed.

Lemma lookup_chars s n : list_ascii_of_string s !! n = String.get n s.
Proof.
  revert n. induction s as [|c s IH]; intros [|n]; simpl; auto.
Qed.

Lemma scan_fold_runs chrom total l : ∀ i b s R,
  flush chrom total
    (fold_left (scan_step chrom) (enumerate_from i l)
       {| in_n_region := b; start := s; regions := R |})
  = R ++ runs chrom total l i b s.
Proof.
  induction l as [|c l IH]; intros i b s R; simpl.
  - unfold flush; simpl. destruct b; simpl; [done | by rewrite app_nil_r].
  - fold (is_n c). destruct (is_n c), b; simpl; rewrite IH; try done.
    by rewrite <- app_assoc.
Qed.

Lemma scan_record_runs R record :
  scan_record R record =
  R ++ runs (rec_id record) (len (rec_seq record))
         (list_ascii_of_string (rec_seq record)) 0 false 0.
Proof.
  unfold scan_record, enumerate.
  apply (scan_fold_runs (rec_id record) (len (rec_seq record))).
Qed.

Lemma scan_record_app R record :
  scan_record R record = R ++ scan_record [] record.
Proof. by rewrite (scan_record_runs R), (scan_record_runs []). Qed.

Lemma fold_scan_record records : ∀ R,
  fold_left scan_record records R = R ++ concat (map (scan_record []) records).
Proof.
  induction records as [|record records IH]; intros R; simpl.
  - by rewrite app_nil_r.
  - rewrite IH, scan_record_app. by rewrite <- app_assoc.
Qed.

Lemma scan_records_blocks records :
  scan_records records = concat (map (scan_record []) records).
Proof. unfold scan_records. by rewrite fold_scan_record. Qed.

Lemma chain_weaken lo lo' total rs :
  lo' ≤ lo → chain lo total rs → chain lo' total rs.
Proof.
  destruct rs; simpl; [done|].
  intros ? (? & ? & ? & ? & ?). repeat split; auto; lia.
Qed.

Lemma chain_lower lo total rs :
  chain lo total rs → Forall (λ r, lo ≤ r_start r) rs.
Proof.
  revert lo. induction rs as [|r rs IH]; intros lo; simpl; [constructor|].
  intros (H1 & H2 & H3 & H4 & H5). constructor; [done|].
  apply IH. eapply chain_weaken; [|exact H5]. lia.
Qed.

Lemma chain_intervals_ok lo total rs :
  0 ≤ lo → chain lo total rs → intervals_ok total rs.
Proof.
  revert lo. induction rs as [|r rs IH]; intros lo Hlo; simpl.
  - intros _. split; [constructor|]. intros i j ri rj _ Hi. by rewrite lookup_nil in Hi.
  - intros (H1 & H2 & H3 & H4 & H5).
    destruct (IH (r_end r + 1) ltac:(lia) H5) as [Hall Hord].
    split; [constructor; [lia | done]|].
    intros i j ri rj Hij Hi Hj. destruct j as [|j]; [lia|].
    destruct i as [|i]; simpl in Hi, Hj.
    + injection Hi as <-.
      pose proof (chain_lower _ _ _ H5) as Hlow.
      rewrite Forall_forall in Hlow.
      specialize (Hlow rj (list_elem_of_lookup_2 _ _ _ Hj)). simpl in Hlow. lia.
    + eapply Hord; [|exact Hi|exact Hj]. lia.
Qed.

Lemma runs_chain chrom total l : ∀ i b s,
  (b = true → s < i) → total = i + Z.of_nat (length l) →
  chain (if b then s else i) total (runs chrom total l i b s).
Proof.
  induction l as [|c l IH]; intros i b s Hb Ht; simpl.
  - destruct b; simpl; [|done]. specialize (Hb eq_refl). simpl in Ht. lia.
  - simpl in Ht. destruct (is_n c).
    + destruct b.
      * apply (IH (i + 1) true s); [intros _; specialize (Hb eq_refl)|]; lia.
      * apply (IH (i + 1) true i); [intros _|]; lia.
    + destruct b; simpl.
      * specialize (Hb eq_refl). repeat split; try lia.
        apply (IH (i + 1) false s); [done | lia].
      * eapply chain_weaken; [|apply (IH (i + 1) false s); [done | lia]].
        simpl. lia.
Qed.

Lemma runs_chrom chrom total l : ∀ i b s,
  Forall (λ r, r_chrom r = chrom) (runs chrom total l i b s).
Proof.
  induction l as [|c l IH]; intros i b s; simpl.
  - destruct b; repeat constructor.
  - destruct (is_n c); [apply IH|].
    apply Forall_app; split; [destruct b; repeat constructor | apply IH].
Qed.

Lemma covered_nil j : ¬ covered j [].
Proof. intros (r & Hr & _). by apply elem_of_nil in Hr. Qed.

Lemma covered_cons j r rs :
  covered j (r :: rs) ↔ r_start r ≤ j < r_end r ∨ covered j rs.
Proof.
  unfold covered. split.
  - intros (r' & Hr & Hj). apply elem_of_cons in Hr as [->|Hr]; [by left|].
    right. by exists r'.
  - intros [Hj|(r' & Hr & Hj)].
    + exists r. split; [apply elem_of_cons; by left | done].
    + exists r'. split; [apply elem_of_cons; by right | done].
Qed.

Lemma runs_covered chrom total l : ∀ i b s j,
  (b = true → s < i) → total = i + Z.of_nat (length l) →
  covered j (runs chrom total l i b s) ↔
  (b = true ∧ s ≤ j < i) ∨
  (i ≤ j ∧ ∃ c, l !! Z.to_nat (j - i) = Some c ∧ is_n c = true).
Proof.
  induction l as [|c l IH]; intros i b s j Hb Ht; simpl in Ht.
  - simpl. destruct b.
    + rewrite covered_cons. simpl. split.
      * intros [H|H]; [left; split; [done|lia] | by apply covered_nil in H].
      * intros [[_ H]|(_ & c & Hc & _)]; [left; lia | by rewrite lookup_nil in Hc].
    + split; [intros H; by apply covered_nil in H|].
      intros [[H _]|(_ & c & Hc & _)]; [done | by rewrite lookup_nil in Hc].
  - assert (Hhead : ∀ c', (i ≤ j ∧ (c :: l) !! Z.to_nat (j - i) = Some c') ↔
        (j = i ∧ c' = c) ∨ (i + 1 ≤ j ∧ l !! Z.to_nat (j - (i + 1)) = Some c')).
    { intros c'. destruct (decide (j = i)) as [->|Hne].
      - replace (Z.to_nat (i - i)) with 0%nat by lia. simpl.
        split; [intros [_ [= ->]]; by left|].
        intros [[_ ->]|[? _]]; [done | lia].
      - split.
        + intros [Hle Hc]. right. split; [lia|].
          replace (Z.to_nat (j - i)) with (S (Z.to_nat (j - (i + 1)))) in Hc by lia.
          done.
        + intros [[? _]|[Hle Hc]]; [done|]. split; [lia|].
          replace (Z.to_nat (j - i)) with (S (Z.to_nat (j - (i + 1)))) by lia.
          done. }
    simpl runs. destruct (is_n c) eqn:Hc.
    + rewrite IH by (destruct b; [specialize (Hb eq_refl)|]; lia). split.
      * intros [[_ Hj]|(Hj & c' & Hl & Hn)].
        -- destruct b.
           ++ destruct (decide (j = i)) as [->|?]; [|left; split; [done|lia]].
              right. split; [lia|]. exists c. split; [|done].
              apply (proj2 (Hhead c)). by left.
           ++ right. assert (j = i) as -> by lia. split; [lia|].
              exists c. split; [|done]. apply (proj2 (Hhead c)). by left.
        -- right. split; [lia|]. exists c'. split; [|done].
           apply (proj2 (Hhead c')). by right.
      * intros [[-> Hj]|(Hj & c' & Hl & Hn)]; [left; split; [done|lia]|].
        destruct (proj1 (Hhead c') (conj Hj Hl)) as [[-> ->]|[Hle Hl']].
        -- left. split; [done|]. destruct b; [specialize (Hb eq_refl)|]; lia.
        -- right. split; [done|]. by exists c'.
    + assert (Htail : covered j (runs chrom total l (i + 1) false s) ↔
          (i ≤ j ∧ ∃ c0, (c :: l) !! Z.to_nat (j - i) = Some c0 ∧ is_n c0 = true)).
      { rewrite IH by (done || lia). split.
        - intros [[? _]|(Hj & c' & Hl & Hn)]; [done|]. split; [lia|].
          exists c'. split; [|done]. apply (proj2 (Hhead c')). by right.
        - intros (Hj & c' & Hl & Hn).
          destruct (proj1 (Hhead c') (conj Hj Hl)) as [[-> ->]|[Hle Hl']];
            [congruence|].
          right. split; [done|]. by exists c'. }
      destruct b; simpl.
      * rewrite covered_cons, Htail. simpl. split.
        -- intros [H|H]; [left; split; [done|lia] | by right].
        -- intros [[_ H]|H]; [left; lia | by right].
      * rewrite Htail. split; [by right|]. by intros [[? _]|?].
Qed.

Lemma runs_all_n chrom total l : ∀ i b s,
  Forall (λ c, is_n c = true) l →
  runs chrom total l i b s =
  if b then [mk_region chrom s total]
  else match l with [] => [] | _ => [mk_region chrom i total] end.
Proof.
  induction l as [|c l IH]; intros i b s Hall; simpl; [done|].
  apply Forall_cons in Hall as [Hc Hall]. rewrite Hc, IH by done.
  by destruct b.
Qed.

Lemma runs_last chrom total l c : ∀ i b s,
  is_n c = true → (b = true → s < i) →
  total = i + Z.of_nat (length (l ++ [c])) →
  ∃ earlier s', runs chrom total (l ++ [c]) i b s =
                earlier ++ [mk_region chrom s' total] ∧
                (if b then s else i) ≤ s' < total.
Proof.
  induction l as [|c' l IH]; intros i b s Hc Hb Ht; simpl in *.
  - rewrite Hc. exists [], (if b then s else i). split; [done|].
    destruct b; [specialize (Hb eq_refl)|]; lia.
  - destruct (is_n c').
    + destruct (IH (i + 1) true (if b then s else i) Hc) as (e & s' & -> & Hs).
      { intros _. destruct b; [specialize (Hb eq_refl)|]; lia. }
      { lia. }
      exists e, s'. split; [done|]. by destruct b.
    + destruct (IH (i + 1) false s Hc) as (e & s' & -> & Hs); [done | lia |].
      exists ((if b then [mk_region chrom s i] else []) ++ e), s'.
      split; [by rewrite app_assoc|].
      destruct b; [specialize (Hb eq_refl)|]; lia.
Qed.

Lemma last_char_chars s c :
  last_char s = Some c → ∃ l, list_ascii_of_string s = l ++ [c].
Proof.
  induction s as [|a s IH]; simpl; [done|].
  destruct s as [|b s'].
  - intros [= ->]. by exists [].
  - intros H. destruct (IH H) as [l Hl]. exists (a :: l).
    simpl in *. by rewrite Hl.
Qed.

Lemma len_chars s : len s = Z.of_nat (length (list_ascii_of_string s)).
Proof. unfold len. by rewrite length_chars. Qed.

Section Scanner.

Variable SeqIO_parse : string → list SeqRecord.

Lemma find_masked_regions_blocks (fs : gmap string file) fasta_file content :
  fs !! fasta_file = Some (Readable content) →
  find_masked_regions SeqIO_parse fs fasta_file =
  Ok (concat (map (scan_record []) (SeqIO_parse content))).
Proof.
  intros Hf. unfold find_masked_regions, open_read. rewrite Hf. simpl.
  by rewrite scan_records_blocks.
Qed.

(** When the file can be read, the result is made of one block per
    record, in order, and every block has the property [P] that all scans
    of one record have. *)
Lemma find_masked_regions_per_record (P : SeqRecord → list region → Prop)
    (fs : gmap string file) fasta_file content :
  (∀ record, P record (scan_record [] record)) →
  fs !! fasta_file = Some (Readable content) →
  ∃ blocks,
    find_masked_regions SeqIO_parse fs fasta_file = Ok (concat blocks) ∧
    Forall2 P (SeqIO_parse content) blocks.
Proof.
  intros HP Hf. exists (map (scan_record []) (SeqIO_parse content)).
  split; [by apply find_masked_regions_blocks|].
  induction (SeqIO_parse content); simpl; constructor; auto.
Qed.

(** C1. For every FASTA file that can be read, [find_masked_regions]
    returns the concatenation, in record order, of one block of intervals
    per sequence; within each block every interval carries the sequence's
    identifier, has [length = end - start > 0], [start >= 0] and
    [end <= len(seq)], and the intervals are strictly increasing in
    [start] and pairwise non-overlapping. *)
Theorem find_masked_regions_intervals (fs : gmap string file) fasta_file content :
  fs !! fasta_file = Some (Readable content) →
  ∃ blocks,
    find_masked_regions SeqIO_parse fs fasta_file = Ok (concat blocks) ∧
    Forall2 (λ record block,
               Forall (λ r, r_chrom r = rec_id record) block ∧
               intervals_ok (len (rec_seq record)) block)
            (SeqIO_parse content) blocks.
Proof.
  apply find_masked_regions_per_record. intros record.
  rewrite scan_record_runs. simpl. split; [apply runs_chrom|].
  apply (chain_intervals_ok 0); [done|].
  apply (runs_chain _ _ _ 0 false 0); [done|]. rewrite len_chars. lia.
Qed.

(** C2. For every FASTA file that can be read, a position of a sequence
    lies in one of the intervals returned for that sequence exactly when
    the sequence holds [N] or [n] there; and a record whose sequence is
    [ATNNNCGNAT] yields the intervals [2,5) of length 3 and [7,8) of
    length 1, in that order. *)
Theorem find_masked_regions_masked_positions (fs : gmap string file)
    fasta_file content :
  fs !! fasta_file = Some (Readable content) →
  ∃ blocks,
    find_masked_regions SeqIO_parse fs fasta_file = Ok (concat blocks) ∧
    Forall2 (λ record block,
               (∀ j : Z, covered j block ↔
                  0 ≤ j ∧ ∃ c, String.get (Z.to_nat j) (rec_seq record) = Some c ∧
                               masked_letter c) ∧
               (rec_seq record = "ATNNNCGNAT" →
                block =
                [ {| r_chrom := rec_id record; r_start := 2; r_end := 5;
                     r_length := 3 |};
                  {| r_chrom := rec_id record; r_start := 7; r_end := 8;
                     r_length := 1 |} ]))
            (SeqIO_parse content) blocks.
Proof.
  apply find_masked_regions_per_record. intros [chrom letters]. split.
  - intros j. rewrite scan_record_runs. simpl.
    rewrite runs_covered by (done || rewrite len_chars; lia).
    rewrite Z.sub_0_r. split.
    + intros [[? _]|(Hj & c & Hc & Hn)]; [done|]. split; [done|].
      exists c. rewrite <- lookup_chars. split; [done | by apply is_n_spec].
    + intros (Hj & c & Hc & Hn). right. split; [done|].
      exists c. rewrite lookup_chars. split; [done | by apply is_n_spec].
  - simpl. intros ->. reflexivity.
Qed.

(** C3. For every FASTA file that can be read and every sequence in it:
    if the last letter of the sequence is [N] or [n], the last interval
    of its block ends at [len(seq)]; and if the sequence is not empty and
    all its letters are [N] or [n], its block is the single interval
    [0, len(seq)). *)
Theorem find_masked_regions_run_at_end (fs : gmap string file)
    fasta_file content :
  fs !! fasta_file = Some (Readable content) →
  ∃ blocks,
    find_masked_regions SeqIO_parse fs fasta_file = Ok (concat blocks) ∧
    Forall2 (λ record block,
               (∀ c, last_char (rec_seq record) = Some c → masked_letter c →
                  ∃ earlier s,
                    block = earlier ++
                      [mk_region (rec_id record) s (len (rec_seq record))] ∧
                    0 ≤ s < len (rec_seq record)) ∧
               (rec_seq record ≠ "" →
                (∀ n c, String.get n (rec_seq record) = Some c →
                        masked_letter c) →
                block = [mk_region (rec_id record) 0 (len (rec_seq record))]))
            (SeqIO_parse content) blocks.
Proof.
  apply find_masked_regions_per_record. intros [chrom letters]. simpl.
  rewrite scan_record_runs. simpl. split.
  - intros c Hlast Hc. destruct (last_char_chars _ _ Hlast) as [l Hl].
    rewrite Hl.
    destruct (runs_last chrom (len letters) l c 0 false 0) as (e & s & -> & Hs).
    + by apply is_n_spec.
    + done.
    + rewrite len_chars, Hl. lia.
    + by exists e, s.
  - intros Hne Hall. rewrite (runs_all_n _ _ _ 0 false 0).
    + destruct letters; [done | reflexivity].
    + apply Forall_lookup. intros n c Hn. apply is_n_spec.
      apply (Hall n). by rewrite <- lookup_chars.
Qed.

End Scanner.

(** ** The matcher *)

Lemma first_some_Some {A B} (f : A → option B) l y :
  first_some f l = Some y → ∃ x, x ∈ l ∧ f x = Some y.
Proof.
  induction l as [|x l IH]; simpl; [done|].
  destruct (f x) as [y'|] eqn:Hx.
  - intros [= ->]. exists x. split; [apply elem_of_cons; by left | done].
  - intros H. destruct (IH H) as (x' & Hin & Hx'). exists x'.
    split; [apply elem_of_cons; by right | done].
Qed.

Lemma candidates_bound q n k :
  k ∈ candidates q n → (k ≤ n)%nat ∧ (q ≠ LazyStar → (1 ≤ k)%nat).
Proof.
  destruct q; unfold candidates.
  - destruct n; simpl; [by intros ?%elem_of_nil|].
    intros ->%list_elem_of_singleton. split; [lia | done].
  - rewrite list_elem_of_In, <- in_rev, <- list_elem_of_In, elem_of_seq. lia.
  - rewrite elem_of_seq. split; [lia | done].
Qed.

Lemma take_span k s : ∀ n,
  (n ≤ span k s)%nat →
  all_cls k (string_take n s) = true ∧ String.length (string_take n s) = n.
Proof.
  induction s as [|c s IH]; intros [|n]; simpl; try (split; done || lia).
  destruct (cls_match k c) eqn:Hc; [|lia]. intros Hn.
  destruct (IH n ltac:(lia)) as [H1 H2]. simpl. by rewrite H1, H2.
Qed.

Lemma re_match_groups_wf pat : ∀ s m,
  re_match pat s = Some m → groups_wf pat m.
Proof.
  induction pat as [|nd pat IH]; intros s m; simpl; [by intros [= <-]|].
  intros H. apply first_some_Some in H as (k & Hk & H).
  destruct (re_match pat (string_drop k s)) as [groups|] eqn:Hm; [|done].
  injection H as <-. apply IH in Hm.
  destruct (n_capture nd); [|done].
  apply candidates_bound in Hk as [Hk Hq].
  destruct (take_span _ _ _ Hk) as [H1 H2].
  split; [done|]. split; [|done].
  intros Hne Hemp. specialize (Hq Hne). rewrite Hemp in H2. simpl in H2. lia.
Qed.

Lemma re_match_char c pat s :
  re_match (Node (Char c) Once false :: pat) s =
  match s with
  | String c' s' => if Ascii.eqb c' c then re_match pat s' else None
  | EmptyString => None
  end.
Proof.
  destruct s as [|c' s']; simpl; [done|].
  destruct (Ascii.eqb c' c); simpl; [|done].
  by destruct (re_match pat s').
Qed.

Lemma app_nil_string (s : string) : "" +:+ s = s.
Proof. reflexivity. Qed.

Lemma app_cons_string c (s t : string) : String c s +:+ t = String c (s +:+ t).
Proof. reflexivity. Qed.

Lemma re_match_lit label pat : ∀ s m,
  re_match (lit label ++ pat) s = Some m ↔
  ∃ s', s = label +:+ s' ∧ re_match pat s' = Some m.
Proof.
  unfold lit. induction label as [|c label IH]; intros s m.
  - simpl. split; [intros H; by exists s | by intros (s' & -> & H)].
  - cbn [list_ascii_of_string map app]. rewrite re_match_char.
    destruct s as [|c' s'].
    + split; [done | by intros (? & ? & _)].
    + destruct (Ascii.eqb_spec c' c) as [->|Hne].
      * rewrite IH. split.
        -- intros (t & -> & H). by exists t.
        -- intros (t & Ht & H). rewrite app_cons_string in Ht.
           injection Ht as ->. by exists t.
      * split; [done|]. intros (t & Ht & _). rewrite app_cons_string in Ht.
        by injection Ht as ? _.
Qed.

Lemma first_match_here pat content m :
  re_match pat content = Some m → first_match pat content m.
Proof.
  intros Hm. exists "", content. repeat split; [done|].
  intros [|??] [|??] ? ?; done.
Qed.

Lemma first_match_unique_here pat content m m' :
  re_match pat content = Some m' → first_match pat content m → m = m'.
Proof.
  intros Hm (pre & rest & Hc & Hr & Hno). destruct pre as [|c pre].
  - rewrite app_nil_string in Hc. subst rest. congruence.
  - specialize (Hno "" (String c pre) eq_refl ltac:(done)).
    rewrite <- Hc in Hno. congruence.
Qed.

Lemma first_match_later pat c content m :
  re_match pat (String c content) = None →
  first_match pat (String c content) m ↔ first_match pat content m.
Proof.
  intros Hm. split.
  - intros (pre & rest & Hc & Hr & Hno). destruct pre as [|c' pre].
    + rewrite app_nil_string in Hc. subst rest. congruence.
    + rewrite app_cons_string in Hc. injection Hc as -> ->.
      exists pre, rest. repeat split; [done|].
      intros pre1 pre2 -> Hne. by apply (Hno (String c' pre1)).
  - intros (pre & rest & -> & Hr & Hno). exists (String c pre), rest.
    repeat split; [done|]. intros pre1 pre2 Hp Hne.
    destruct pre1 as [|c1 pre1].
    + rewrite app_nil_string in Hp. by subst pre2.
    + rewrite app_cons_string in Hp. injection Hp as -> ->.
      by apply (Hno pre1).
Qed.

(** [re.search] returns the groups of the leftmost match, and nothing
    when no offset matches. *)
Lemma re_search_first_match pat : ∀ content m,
  re_search pat content = Some m ↔ first_match pat content m.
Proof.
  induction content as [|c content IH]; intros m; simpl.
  - destruct (re_match pat "") as [m'|] eqn:Hm.
    + split; [intros [= <-]; by apply first_match_here|].
      intros H. f_equal. symmetry. by eapply first_match_unique_here.
    + split; [done|]. intros (pre & rest & Hc & Hr & _).
      destruct pre; [|done]. rewrite app_nil_string in Hc. subst rest.
      congruence.
  - destruct (re_match pat (String c content)) as [m'|] eqn:Hm.
    + split; [intros [= <-]; by apply first_match_here|].
      intros H. f_equal. symmetry. by eapply first_match_unique_here.
    + by rewrite IH, first_match_later.
Qed.

Lemma string_app_assoc (a b c : string) : (a +:+ b) +:+ c = a +:+ b +:+ c.
Proof.
  induction a as [|x a IH]; [done|]. rewrite !app_cons_string. by rewrite IH.
Qed.

Lemma re_search_lit_occurs label pat content m :
  re_search (lit label ++ pat) content = Some m → occurs label content.
Proof.
  intros (pre & rest & -> & Hr & _)%re_search_first_match.
  apply re_match_lit in Hr as (s' & -> & _). by exists pre, s'.
Qed.

Lemma re_search_no_label label pat content :
  ¬ occurs label content → re_search (lit label ++ pat) content = None.
Proof.
  intros Hno. destruct (re_search _ content) eqn:H; [|done].
  by apply re_search_lit_occurs in H.
Qed.

Lemma string_prefix_spec p : ∀ s,
  string_prefix p s = true ↔ ∃ t, s = p +:+ t.
Proof.
  induction p as [|a p IH]; intros s; simpl.
  - split; [intros _; by exists s | done].
  - destruct s as [|b s].
    + split; [done | by intros [t Ht]].
    + rewrite andb_true_iff, IH, Ascii.eqb_eq. split.
      * intros [-> [t ->]]. by exists t.
      * intros [t Ht]. rewrite app_cons_string in Ht. injection Ht as -> ->.
        split; [done | by exists t].
Qed.

Lemma occursb_spec label : ∀ content,
  occursb label content = true ↔ occurs label content.
Proof.
  induction content as [|c content IH]; simpl.
  - rewrite orb_false_r, string_prefix_spec. split.
    + intros [t Ht]. by exists "", t.
    + intros (pre & post & H). destruct pre; [by exists post | done].
  - rewrite orb_true_iff, string_prefix_spec, IH. split.
    + intros [[t Ht]|(pre & post & ->)].
      * by exists "", t.
      * by exists (String c pre), post.
    + intros (pre & post & H). destruct pre as [|c' pre].
      * left. by exists post.
      * rewrite app_cons_string in H. injection H as -> ->.
        right. by exists pre, post.
Qed.

Lemma starts_inside_spec label rest : ∀ pre,
  starts_inside label pre rest = false →
  ∀ pre1 pre2 t, pre = pre1 +:+ pre2 → pre2 ≠ "" →
                 pre2 +:+ rest ≠ label +:+ t.
Proof.
  induction pre as [|c pre IH]; simpl.
  - intros _ [|??] [|??] t; done.
  - rewrite orb_false_iff. intros [Hhere Hlater] pre1 pre2 t Hp Hne Heq.
    destruct pre1 as [|c1 pre1].
    + rewrite app_nil_string in Hp. subst pre2.
      assert (string_prefix label (String c pre +:+ rest) = true) as Ht
        by (apply string_prefix_spec; by exists t).
      congruence.
    + rewrite app_cons_string in Hp. injection Hp as -> ->.
      by apply (IH Hlater pre1 pre2 t).
Qed.

(** ** The parsers *)

Lemma all_cls_digit s : all_cls Digit s = all_digits s.
Proof. induction s as [|c s IH]; simpl; [done | by rewrite IH]. Qed.

Lemma int_digits g :
  all_cls Digit g = true → g ≠ "" → int g = Ok (digits_value 0 g).
Proof.
  intros Hd Hne. unfold int. rewrite <- all_cls_digit, Hd.
  destruct g; [done | reflexivity].
Qed.

Lemma re_search_groups_wf pat content m :
  re_search pat content = Some m → groups_wf pat m.
Proof.
  intros (pre & rest & _ & Hr & _)%re_search_first_match.
  by eapply re_match_groups_wf.
Qed.

Lemma plus_not_lazy : Plus ≠ LazyStar.
Proof. done. Qed.

(** The shape of the groups of each pattern. *)
Lemma one_int_group label m :
  groups_wf (lit label ++ [Node Space Plus false; Node Digit Plus true]) m →
  int (group m 1) = Ok (digits_value 0 (group m 1)).
Proof.
  unfold lit. induction (list_ascii_of_string label) as [|c l IH]; simpl; [|done].
  destruct m as [|g m]; [done|]. intros (Hd & Hne & _).
  apply int_digits; [done | by apply Hne].
Qed.

Lemma total_masked_groups m :
  groups_wf total_masked_re m →
  int (group m 1) = Ok (digits_value 0 (group m 1)).
Proof.
  unfold total_masked_re. simpl.
  destruct m as [|g m]; [done|]. intros (Hd & Hne & _).
  apply int_digits; [done | by apply Hne].
Qed.

Lemma mapped_groups m :
  groups_wf mapped_re m →
  int (group m 2) = Ok (digits_value 0 (group m 2)).
Proof.
  unfold mapped_re. simpl.
  destruct m as [|g1 [|g2 m]]; try tauto. intros (_ & _ & Hd & Hne & _).
  apply int_digits; [done | by apply Hne].
Qed.

Lemma int_field_ok label key content stats :
  let pat := lit label ++ [Node Space Plus false; Node Digit Plus true] in
  int_field pat key content stats = Ok (add_int pat key content stats).
Proof.
  intros pat. unfold int_field, add_int.
  destruct (re_search pat content) as [m|] eqn:Hs; [|done].
  apply re_search_groups_wf in Hs. by rewrite (one_int_group _ _ Hs).
Qed.

(** [parse_mask_log] on a readable file: the three counts cannot fail,
    and the last pattern fails exactly when [float] rejects its third
    group. *)
Lemma parse_mask_log_eq (fs : gmap string file) log_file content :
  fs !! log_file = Some (Readable content) →
  parse_mask_log fs log_file =
  let stats :=
    add_int sam_masked_re "viral_masked_bases" content
      (add_int low_complexity_re "low_complexity_bases" content
         (add_int ref_bases_re "total_bases" content ∅)) in
  match re_search total_masked_re content with
  | Some m =>
      p <~ float (group m 3);
      Ok (<["masking_percentage" := VFloat p]>
            (<["total_masked_bases" := VInt (digits_value 0 (group m 1))]> stats))
  | None => Ok stats
  end.
Proof.
  intros Hf. unfold parse_mask_log, open_read. rewrite Hf. cbn [rbind].
  unfold ref_bases_re, low_complexity_re, sam_masked_re.
  rewrite int_field_ok. cbn [rbind]. rewrite int_field_ok. cbn [rbind].
  rewrite int_field_ok. cbn [rbind].
  destruct (re_search total_masked_re content) as [m|] eqn:Hs; [|done].
  apply re_search_groups_wf in Hs. by rewrite (total_masked_groups _ Hs).
Qed.

Lemma parse_map_log_eq (fs : gmap string file) log_file content :
  fs !! log_file = Some (Readable content) →
  parse_map_log fs log_file =
  let stats := add_int reads_used_re "total_reads" content ∅ in
  stats <~ match re_search mapped_re content with
           | Some m =>
               p <~ float (group m 1);
               Ok (<["mapped_reads" := VInt (digits_value 0 (group m 2))]>
                     (<["mapped_percentage" := VFloat p]> stats))
           | None => Ok stats
           end;
  match re_search match_rate_re content with
  | Some m => p <~ float (group m 1); Ok (<["match_rate" := VFloat p]> stats)
  | None => Ok stats
  end.
Proof.
  intros Hf. unfold parse_map_log, open_read. rewrite Hf. cbn [rbind].
  unfold reads_used_re. rewrite int_field_ok. cbn [rbind].
  destruct (re_search mapped_re content) as [m|] eqn:Hs; [|done].
  apply re_search_groups_wf in Hs. rewrite (mapped_groups _ Hs).
  by destruct (float (group m 1)).
Qed.

Ltac split_fields H :=
  repeat (apply elem_of_cons in H as [->|H]); [..|by apply elem_of_nil in H].

Lemma add_int_lookup pat key content (stats : gmap string value) key' :
  add_int pat key content stats !! key' =
  if decide (key = key') then
    match re_search pat content with
    | Some m => Some (VInt (digits_value 0 (group m 1)))
    | None => stats !! key'
    end
  else stats !! key'.
Proof.
  unfold add_int. destruct (re_search pat content).
  - rewrite lookup_insert. by destruct (decide (key = key')).
  - by destruct (decide (key = key')) as [->|].
Qed.

Lemma mask_log_fields (fs : gmap string file) log_file content :
  fs !! log_file = Some (Readable content) →
  floats_accepted mask_fields content →
  ∃ stats, parse_mask_log fs log_file = Ok stats ∧
    (∀ f, f ∈ mask_fields → stats !! f_key f = field_value f content) ∧
    (∀ key, key ∉ f_key <$> mask_fields → stats !! key = None).
Proof.
  intros Hf Hfl. rewrite (parse_mask_log_eq _ _ _ Hf). cbn zeta.
  destruct (re_search total_masked_re content) as [m|] eqn:Hs.
  - assert (Hp : raises (float (group m 3)) = false).
    { apply (Hfl (Field "masking_percentage" "Total Bases Masked:"
                    total_masked_re 3 true)); [|done..].
      unfold mask_fields. set_solver. }
    destruct (float (group m 3)) as [p|] eqn:Hfloat; [|done]. cbn [rbind].
    eexists. split; [done|]. split.
    + intros f H. unfold mask_fields in H. split_fields H;
        unfold field_value, value_of; cbn [f_key f_pat f_float f_group];
        rewrite ?Hs, ?Hfloat, ?lookup_insert, ?add_int_lookup; simpl;
        rewrite ?lookup_empty; done.
    + intros key Hk. unfold mask_fields in Hk. simpl in Hk.
      rewrite !not_elem_of_cons in Hk. destruct Hk as (?&?&?&?&?&_).
      rewrite !lookup_insert_ne, !add_int_lookup by done.
      repeat (destruct (decide _); [congruence|]). apply lookup_empty.
  - eexists. split; [done|]. split.
    + intros f H. unfold mask_fields in H. split_fields H;
        unfold field_value, value_of; cbn [f_key f_pat f_float f_group];
        rewrite ?Hs, ?add_int_lookup; simpl;
        rewrite ?lookup_empty; done.
    + intros key Hk. unfold mask_fields in Hk. simpl in Hk.
      rewrite !not_elem_of_cons in Hk. destruct Hk as (?&?&?&?&?&_).
      rewrite !add_int_lookup.
      repeat (destruct (decide _); [congruence|]). apply lookup_empty.
Qed.

Lemma map_log_fields (fs : gmap string file) log_file content :
  fs !! log_file = Some (Readable content) →
  floats_accepted map_fields content →
  ∃ stats, parse_map_log fs log_file = Ok stats ∧
    (∀ f, f ∈ map_fields → stats !! f_key f = field_value f content) ∧
    (∀ key, key ∉ f_key <$> map_fields → stats !! key = None).
Proof.
  intros Hf Hfl. rewrite (parse_map_log_eq _ _ _ Hf). cbn zeta.
  assert (Hp1 : ∀ m, re_search mapped_re content = Some m →
                     ∃ p, float (group m 1) = Ok p).
  { intros m Hs.
    pose proof (Hfl (Field "mapped_percentage" "mapped:" mapped_re 1 true) m)
      as H.
    cbn [f_pat f_float f_group] in H.
    destruct (float (group m 1)) as [p|]; [by exists p|].
    discriminate H; [unfold map_fields; set_solver | done..]. }
  assert (Hp2 : ∀ m, re_search match_rate_re content = Some m →
                     ∃ p, float (group m 1) = Ok p).
  { intros m Hs.
    pose proof (Hfl (Field "match_rate" "Match Rate:" match_rate_re 1 true) m)
      as H.
    cbn [f_pat f_float f_group] in H.
    destruct (float (group m 1)) as [p|]; [by exists p|].
    discriminate H; [unfold map_fields; set_solver | done..]. }
  destruct (re_search mapped_re content) as [m1|] eqn:Hs1;
    [destruct (Hp1 m1 eq_refl) as [p1 Hf1]; rewrite Hf1|];
    cbn [rbind];
    (destruct (re_search match_rate_re content) as [m2|] eqn:Hs2;
     [destruct (Hp2 m2 eq_refl) as [p2 Hf2]; rewrite Hf2|]);
    cbn [rbind]; (eexists; split; [done|]); split.
  all: try (intros f H; unfold map_fields in H; split_fields H;
        unfold field_value, value_of; cbn [f_key f_pat f_float f_group];
        rewrite ?Hs1, ?Hs2, ?Hf1, ?Hf2, ?lookup_insert, ?add_int_lookup; simpl;
        rewrite ?lookup_empty; done).
  all: intros key Hk; unfold map_fields in Hk; simpl in Hk;
      rewrite !not_elem_of_cons in Hk; destruct Hk as (?&?&?&?&_);
      rewrite ?lookup_insert_ne, ?add_int_lookup by done;
      repeat (destruct (decide _); [congruence|]); apply lookup_empty.
Qed.

Lemma field_label (f : field) :
  f ∈ mask_fields ++ map_fields →
  ∃ pat, f_pat f = lit (f_label f) ++ pat.
Proof.
  intros H. unfold mask_fields, map_fields in H. simpl in H.
  split_fields H; cbn [f_pat f_label]; eexists; reflexivity.
Qed.

(** C4 (amended). For every log text, every statistic is read from the
    leftmost match of its own pattern and from nothing else.  When the
    label phrase of a statistic does not occur, or its pattern matches
    nowhere (a value after the label is not of the numeric shape), the
    statistic is absent from the record, together with the other
    statistic of the same pattern for the two paired lines, and no zero
    is put in its place.  When [float] accepts the captured percentage
    texts, the parser returns a record that holds exactly these
    statistics. *)
Theorem parsers_fields_per_pattern (fs : gmap string file) log_file content :
  fs !! log_file = Some (Readable content) →
  (floats_accepted mask_fields content →
   ∃ stats, parse_mask_log fs log_file = Ok stats ∧
     (∀ f, f ∈ mask_fields → stats !! f_key f = field_value f content) ∧
     (∀ key, key ∉ f_key <$> mask_fields → stats !! key = None)) ∧
  (floats_accepted map_fields content →
   ∃ stats, parse_map_log fs log_file = Ok stats ∧
     (∀ f, f ∈ map_fields → stats !! f_key f = field_value f content) ∧
     (∀ key, key ∉ f_key <$> map_fields → stats !! key = None)) ∧
  (∀ f, f ∈ mask_fields ++ map_fields →
     (¬ occurs (f_label f) content → field_value f content = None) ∧
     (re_search (f_pat f) content = None → field_value f content = None) ∧
     (∀ m, re_search (f_pat f) content = Some m →
           field_value f content = value_of f m)).
Proof.
  intros Hf. split; [by apply mask_log_fields|].
  split; [by apply map_log_fields|].
  intros f Hin. unfold field_value. repeat split.
  - intros Hno. destruct (field_label f Hin) as [pat ->].
    by rewrite re_search_no_label.
  - by intros ->.
  - by intros m ->.
Qed.

(** C4 (counterexample).  In a mapping log the count after [mapped:] is
    not a number: the percentage before it, which [float] accepts, is
    dropped with it.  In another the percentage has two dots: the parser
    raises [ValueError] and returns no record, although [Reads Used:]
    is well formed. *)
Lemma parsers_fields_not_single :
  float "12.5" = Ok (Qmake 25 2) ∧
  parse_map_log {[ "s_map.log" := Readable "mapped: 12.5% abc" ]} "s_map.log"
    = Ok ∅ ∧
  parse_map_log
    {[ "s_map.log" := Readable ("Reads Used: 10" +:+ NL +:+ "mapped: 1.2.3% 7") ]}
    "s_map.log"
    = Raise (ValueError "1.2.3").
Proof. repeat split; vm_compute; reflexivity. Qed.

Lemma mask_log_outcome (fs : gmap string file) log_file content :
  fs !! log_file = Some (Readable content) →
  (floats_accepted mask_fields content ∧
   ∃ stats, parse_mask_log fs log_file = Ok stats) ∨
  (∃ e m, parse_mask_log fs log_file = Raise e ∧
          re_search total_masked_re content = Some m ∧
          float (group m 3) = Raise e).
Proof.
  intros Hf. rewrite (parse_mask_log_eq _ _ _ Hf). cbn zeta.
  destruct (re_search total_masked_re content) as [m|] eqn:Hs.
  - destruct (float (group m 3)) as [p|e] eqn:Hfloat; cbn [rbind].
    + left. split; [|by eexists].
      intros f m' H Hfl Hm. unfold mask_fields in H.
      split_fields H; try discriminate Hfl.
      cbn [f_pat f_group] in *. rewrite Hs in Hm. injection Hm as <-.
      by rewrite Hfloat.
    + right. by exists e, m.
  - left. split; [|by eexists].
    intros f m' H Hfl Hm. unfold mask_fields in H.
    split_fields H; try discriminate Hfl.
    cbn [f_pat] in Hm. congruence.
Qed.

Lemma map_log_outcome (fs : gmap string file) log_file content :
  fs !! log_file = Some (Readable content) →
  (floats_accepted map_fields content ∧
   ∃ stats, parse_map_log fs log_file = Ok stats) ∨
  (∃ e f m, parse_map_log fs log_file = Raise e ∧
            f ∈ map_fields ∧ f_float f = true ∧
            re_search (f_pat f) content = Some m ∧
            float (group m (f_group f)) = Raise e).
Proof.
  intros Hf. rewrite (parse_map_log_eq _ _ _ Hf). cbn zeta.
  destruct (re_search mapped_re content) as [m1|] eqn:Hs1;
    [destruct (float (group m1 1)) as [p1|e1] eqn:Hf1|]; cbn [rbind].
  2: { right. exists e1, (Field "mapped_percentage" "mapped:" mapped_re 1 true), m1.
       repeat split; try done. unfold map_fields. set_solver. }
  all: destruct (re_search match_rate_re content) as [m2|] eqn:Hs2;
    [destruct (float (group m2 1)) as [p2|e2] eqn:Hf2|]; cbn [rbind].
  all: try (right;
    exists e2, (Field "match_rate" "Match Rate:" match_rate_re 1 true), m2;
    repeat split; try done; unfold map_fields; set_solver).
  all: left; (split; [|by eexists]);
    intros f m' H Hfl Hm; unfold map_fields in H;
    split_fields H; try discriminate Hfl;
    cbn [f_pat f_group] in *; rewrite ?Hs1, ?Hs2 in Hm;
    try discriminate Hm; injection Hm as <-; by rewrite ?Hf1, ?Hf2.
Qed.

Lemma value_of_is_Some fields content f m :
  floats_accepted fields content → f ∈ fields →
  re_search (f_pat f) content = Some m → is_Some (value_of f m).
Proof.
  intros Hfl Hin Hs. unfold value_of.
  destruct (f_float f) eqn:Hb; [|by eexists].
  specialize (Hfl f m Hin Hb Hs).
  destruct (float (group m (f_group f))); [by eexists | done].
Qed.

Lemma total_masked_re_label :
  ∃ pat, total_masked_re = lit "Total Bases Masked:" ++ pat.
Proof. eexists. reflexivity. Qed.

(** C5. For every masking log that can be read: if the text holds the
    line [Total Bases Masked: 150/1000 15.000%] and the label does not
    start anywhere before it, the record has [total_masked_bases = 150]
    and [masking_percentage = 15.0]; if the label occurs nowhere, or the
    pattern of the line matches nowhere, a record is returned and both
    fields are absent; and every record returned has both fields or
    neither. *)
Theorem parse_mask_log_total_masked (fs : gmap string file) log_file content :
  fs !! log_file = Some (Readable content) →
  (∀ pre post,
     content = pre +:+ "Total Bases Masked: 150/1000 15.000%" +:+ post →
     (∀ pre1 pre2 t, pre = pre1 +:+ pre2 → pre2 ≠ "" →
        pre2 +:+ "Total Bases Masked: 150/1000 15.000%" +:+ post ≠
        "Total Bases Masked:" +:+ t) →
     ∃ stats, parse_mask_log fs log_file = Ok stats ∧
       stats !! "total_masked_bases" = Some (VInt 150) ∧
       stats !! "masking_percentage" = Some (VFloat (Qmake 15 1))) ∧
  (¬ occurs "Total Bases Masked:" content ∨
   re_search total_masked_re content = None →
     ∃ stats, parse_mask_log fs log_file = Ok stats ∧
       stats !! "total_masked_bases" = None ∧
       stats !! "masking_percentage" = None) ∧
  (∀ stats, parse_mask_log fs log_file = Ok stats →
     (is_Some (stats !! "total_masked_bases") ↔
      is_Some (stats !! "masking_percentage"))).
Proof.
  intros Hf. rewrite (parse_mask_log_eq _ _ _ Hf). cbn zeta.
  split; [|split].
  - intros pre post -> Hfirst.
    assert (Hs : re_search total_masked_re
        (pre +:+ "Total Bases Masked: 150/1000 15.000%" +:+ post)
        = Some ["150"; "1000"; "15.000"]).
    { apply re_search_first_match. eexists pre, _. split; [done|].
      split; [vm_compute; reflexivity|].
      intros pre1 pre2 Hp Hne.
      destruct (re_match total_masked_re _) as [m|] eqn:Hm; [|done].
      destruct total_masked_re_label as [pat Hpat]. rewrite Hpat in Hm.
      apply re_match_lit in Hm as (t & Ht & _).
      by destruct (Hfirst pre1 pre2 t). }
    rewrite Hs. eexists. split; [reflexivity|].
    split; [by rewrite lookup_insert_ne, lookup_insert_eq|].
    by rewrite lookup_insert_eq.
  - intros Hno.
    assert (re_search total_masked_re content = None) as ->.
    { destruct Hno as [Hno|Hno]; [|done].
      destruct total_masked_re_label as [pat Hpat].
      by rewrite Hpat, re_search_no_label. }
    eexists. split; [done|].
    rewrite !add_int_lookup. simpl. by rewrite lookup_empty.
  - intros stats.
    destruct (re_search total_masked_re content) as [m|].
    + destruct (float (group m 3)); [|done]. intros [= <-].
      rewrite lookup_insert_eq, lookup_insert_ne, lookup_insert_eq by done.
      split; by eexists.
    + intros [= <-]. rewrite !add_int_lookup. simpl. rewrite lookup_empty.
      split; by intros [? ?].
Qed.

(** C10. For every log that can be read, whenever a parser returns a
    record, each statistic whose pattern matches somewhere has the value
    read at the leftmost offset where the pattern matches, whatever
    follows that match; and a parser that raises does so on the
    percentage text of such a leftmost match. *)
Theorem parsers_use_leftmost_match (fs : gmap string file) log_file content :
  fs !! log_file = Some (Readable content) →
  match parse_mask_log fs log_file with
  | Ok stats =>
      ∀ f m, f ∈ mask_fields → first_match (f_pat f) content m →
             stats !! f_key f = value_of f m ∧ is_Some (value_of f m)
  | Raise e =>
      ∃ f m, f ∈ mask_fields ∧ f_float f = true ∧
             first_match (f_pat f) content m ∧
             float (group m (f_group f)) = Raise e
  end ∧
  match parse_map_log fs log_file with
  | Ok stats =>
      ∀ f m, f ∈ map_fields → first_match (f_pat f) content m →
             stats !! f_key f = value_of f m ∧ is_Some (value_of f m)
  | Raise e =>
      ∃ f m, f ∈ map_fields ∧ f_float f = true ∧
             first_match (f_pat f) content m ∧
             float (group m (f_group f)) = Raise e
  end.
Proof.
  intros Hf. split.
  - destruct (mask_log_outcome _ _ _ Hf) as [[Hfl _]|(e & m & -> & Hs & He)].
    + destruct (mask_log_fields _ _ _ Hf Hfl) as (stats & -> & Hfields & _).
      intros f m Hin Hm%re_search_first_match. split.
      * rewrite (Hfields f Hin). unfold field_value. by rewrite Hm.
      * by eapply value_of_is_Some.
    + exists (Field "masking_percentage" "Total Bases Masked:"
                total_masked_re 3 true), m.
      repeat split; try done; [unfold mask_fields; set_solver|].
      by apply re_search_first_match.
  - destruct (map_log_outcome _ _ _ Hf) as [[Hfl _]|(e & f & m & -> & ? & ? & Hs & He)].
    + destruct (map_log_fields _ _ _ Hf Hfl) as (stats & -> & Hfields & _).
      intros f m Hin Hm%re_search_first_match. split.
      * rewrite (Hfields f Hin). unfold field_value. by rewrite Hm.
      * by eapply value_of_is_Some.
    + exists f, m. repeat split; try done. by apply re_search_first_match.
Qed.

(** ** The BED writer *)

Lemma app_string_nil_r (s : string) : s +:+ "" = s.
Proof. induction s as [|c s IH]; [done|]. by rewrite app_cons_string, IH. Qed.

Lemma bed_fold regions : ∀ i f,
  fold_left bed_step (enumerate_from i regions) f =
  f +:+ concat_strings
          (imap (λ k r, bed_line (i + Z.of_nat k + 1) r) regions).
Proof.
  induction regions as [|r regions IH]; intros i f; simpl.
  - by rewrite app_string_nil_r.
  - rewrite IH. unfold write. fold (bed_line (i + 1) r).
    rewrite string_app_assoc. f_equal.
    replace (i + Z.of_nat 0 + 1) with (i + 1) by lia. do 2 f_equal.
    apply imap_ext. intros k r' _. simpl. f_equal. lia.
Qed.

(** C8. Whatever the regions, the output path and the files present,
    after [generate_bed_file] the output file holds the two header lines
    followed by one line per interval, in order; the line of the interval
    at position [i] (from 0) is
    [chrom TAB start TAB end TAB masked_region_<i+1> TAB length TAB . NL]. *)
Theorem generate_bed_file_lines (regions : list region) output_file
    (fs : gmap string file) :
  ∃ lines,
    generate_bed_file regions output_file fs !! output_file =
      Some (Readable (bed_header_1 +:+ bed_header_2 +:+ concat_strings lines)) ∧
    length lines = length regions ∧
    ∀ (i : nat) r, regions !! i = Some r →
      lines !! i =
      Some (r_chrom r +:+ TAB +:+ str (r_start r) +:+ TAB +:+
            str (r_end r) +:+ TAB +:+
            "masked_region_" +:+ str (Z.of_nat i + 1) +:+ TAB +:+
            str (r_length r) +:+ TAB +:+ "." +:+ NL).
Proof.
  exists (imap (λ k r, bed_line (0 + Z.of_nat k + 1) r) regions).
  split; [|split].
  - unfold generate_bed_file, enumerate. rewrite lookup_insert_eq.
    rewrite bed_fold. unfold write. by rewrite app_nil_string, string_app_assoc.
  - by rewrite length_imap.
  - intros i r Hr. rewrite list_lookup_imap, Hr. simpl. done.
Qed.

Lemma generate_bed_file_insert regions output_file (fs : gmap string file) :
  ∃ text, ∀ fs' : gmap string file,
    generate_bed_file regions output_file fs' =
    <[output_file := Readable text]> fs'.
Proof. eexists. intros fs'. reflexivity. Qed.

Section Pipeline.

Variable SeqIO_parse : string → list SeqRecord.

(** C9. Two runs of the scan followed by the BED writer on the same
    sequence data leave the same text in the BED file, whatever the BED
    file and the other files held before each run; and a second run
    directly after the first changes no file. *)
Theorem extract_regions_deterministic (fs1 fs2 : gmap string file)
    masked_fasta bed_file content :
  fs1 !! masked_fasta = Some (Readable content) →
  fs2 !! masked_fasta = Some (Readable content) →
  ∃ fs1' fs2' text,
    extract_regions SeqIO_parse fs1 masked_fasta bed_file = Ok fs1' ∧
    extract_regions SeqIO_parse fs2 masked_fasta bed_file = Ok fs2' ∧
    fs1' !! bed_file = Some (Readable text) ∧
    fs2' !! bed_file = Some (Readable text) ∧
    (bed_file ≠ masked_fasta →
     extract_regions SeqIO_parse fs1' masked_fasta bed_file = Ok fs1').
Proof.
  intros H1 H2. unfold extract_regions.
  rewrite (find_masked_regions_blocks _ _ _ _ H1),
          (find_masked_regions_blocks _ _ _ _ H2). cbn [rbind].
  destruct (generate_bed_file_insert
              (concat (map (scan_record []) (SeqIO_parse content)))
              bed_file fs1) as [text Htext].
  exists (<[bed_file := Readable text]> fs1),
         (<[bed_file := Readable text]> fs2), text.
  rewrite !Htext, !lookup_insert_eq. repeat split; try done.
  intros Hne.
  rewrite (find_masked_regions_blocks _ _ _ content)
    by (by rewrite lookup_insert_ne).
  cbn [rbind]. by rewrite Htext, insert_insert_eq.
Qed.

End Pipeline.

(** ** The loop of [main] *)

Section MainLoop.

Variable SeqIO_parse : string → list SeqRecord.

(** The loop body in closed form. *)
Lemma process_sample_eq (a : args) sample (st : main_state) :
  process_sample SeqIO_parse a sample st =
  let out1 := stdout st ++ ["Processing sample: " +:+ sample] in
  match sample_stats (fs st) a sample with
  | Raise e =>
      ({| stats_dict := stats_dict st; regions_dict := regions_dict st;
          fs := fs st; stdout := out1 |}, Raise e)
  | Ok stats =>
      let sd := dict_set sample stats (stats_dict st) in
      if os_path_exists (fs st) (masked_fasta_path a sample) then
        match find_masked_regions SeqIO_parse (fs st)
                (masked_fasta_path a sample) with
        | Raise e =>
            ({| stats_dict := sd; regions_dict := regions_dict st;
                fs := fs st; stdout := out1 |}, Raise e)
        | Ok regions =>
            ({| stats_dict := sd;
                regions_dict := dict_set sample regions (regions_dict st);
                fs := generate_bed_file regions (bed_path a sample) (fs st);
                stdout := out1 ++
                  ["Generated BED file: " +:+ bed_path a sample] |}, Ok tt)
        end
      else
        ({| stats_dict := sd; regions_dict := regions_dict st;
            fs := fs st; stdout := out1 |}, Ok tt)
  end.
Proof.
  unfold process_sample, sample_stats, bind, lift, print, set_stats,
    set_regions, write_bed, modify, ret.
  fold (mask_log_path a sample) (map_log_path a sample)
       (masked_fasta_path a sample) (bed_path a sample).
  cbv zeta.
  repeat (cbn [rbind fs stats_dict regions_dict stdout]; try done;
          case_match).
Qed.

(** *** Dictionaries *)

Lemma dict_lookup_set_eq {V} k (v : V) d :
  dict_lookup k (dict_set k v d) = Some v.
Proof.
  induction d as [|[k' v'] d IH]; simpl.
  - by destruct (decide (k = k)).
  - destruct (decide (k = k')) as [->|Hne]; simpl.
    + by destruct (decide (k' = k')).
    + by destruct (decide (k = k')).
Qed.

Lemma dict_lookup_set_ne {V} k k' (v : V) d :
  k ≠ k' → dict_lookup k' (dict_set k v d) = dict_lookup k' d.
Proof.
  intros Hne. induction d as [|[k0 v0] d IH]; simpl.
  - by destruct (decide (k' = k)) as [->|].
  - destruct (decide (k = k0)) as [->|Hne0]; simpl.
    + by destruct (decide (k' = k0)) as [->|].
    + by destruct (decide (k' = k0)).
Qed.

Lemma dict_keys_set {V} k (v : V) d :
  dict_keys (dict_set k v d) =
  if decide (k ∈ dict_keys d) then dict_keys d else dict_keys d ++ [k].
Proof.
  unfold dict_keys. induction d as [|[k' v'] d IH]; [done|].
  cbn [dict_set]. destruct (decide (k = k')) as [->|Hne].
  - rewrite !fmap_cons. cbn [fst].
    rewrite decide_True by (apply elem_of_cons; by left). done.
  - rewrite !fmap_cons, IH. cbn [fst].
    destruct (decide (k ∈ d.*1)) as [Hin|Hnin].
    + rewrite decide_True by (apply elem_of_cons; by right). done.
    + rewrite decide_False by (rewrite elem_of_cons; intros [|]; done). done.
Qed.

Lemma first_occurrences_fold (l : list string) : ∀ acc,
  NoDup (acc ++ l) →
  fold_left (λ acc s, if decide (s ∈ acc) then acc else acc ++ [s]) l acc
  = acc ++ l.
Proof.
  induction l as [|s l IH]; intros acc Hnd; simpl; [by rewrite app_nil_r|].
  destruct (decide (s ∈ acc)) as [Hin|Hnin].
  - apply NoDup_app in Hnd as (_ & Hd & _). destruct (Hd s Hin).
    apply elem_of_cons. by left.
  - rewrite IH; rewrite <- app_assoc; done.
Qed.

Lemma first_occurrences_NoDup l : NoDup l → first_occurrences l = l.
Proof. intros H. by apply (first_occurrences_fold l []). Qed.

(** *** Paths *)

Lemma last_char_app (s t : string) :
  t ≠ "" → last_char (s +:+ t) = last_char t.
Proof.
  intros Ht. induction s as [|c s IH]; [done|].
  rewrite app_cons_string. simpl. rewrite IH.
  destruct (s +:+ t) eqn:E; [|done].
  destruct s; [by rewrite app_nil_string in E | done].
Qed.

Lemma last_char_join a b :
  b ≠ "" → last_char (os_path_join a b) = last_char b.
Proof.
  intros Hb. unfold os_path_join.
  destruct b as [|c b]; [done|].
  destruct (decide (c = "/"%char)) as [->|Hc]; [done|].
  assert (Hjoin : last_char
      match last_char a with
      | Some "/"%char => a +:+ String c b
      | Some _ => a +:+ "/" +:+ String c b
      | None => String c b
      end = last_char (String c b)).
  { destruct (last_char a) as [x|]; [|done].
    destruct (decide (x = "/"%char)) as [->|Hx].
    - by apply last_char_app.
    - transitivity (last_char (a +:+ "/" +:+ String c b)).
      + by destruct x as [[] [] [] [] [] [] [] []].
      + rewrite last_char_app by done. by apply (last_char_app "/"). }
  by destruct c as [[] [] [] [] [] [] [] []].
Qed.

Lemma last_char_suffix (sample suffix : string) dir :
  suffix ≠ "" →
  last_char (os_path_join dir (sample +:+ suffix)) = last_char suffix.
Proof.
  intros Hs. rewrite last_char_join, last_char_app; [done..|].
  destruct sample; [by rewrite app_nil_string|].
  by rewrite app_cons_string.
Qed.

Lemma not_bed_mask_log a sample : not_bed (mask_log_path a sample).
Proof. unfold not_bed, mask_log_path. by rewrite last_char_suffix. Qed.

Lemma not_bed_map_log a sample : not_bed (map_log_path a sample).
Proof. unfold not_bed, map_log_path. by rewrite last_char_suffix. Qed.

Lemma not_bed_masked_fasta a sample : not_bed (masked_fasta_path a sample).
Proof. unfold not_bed, masked_fasta_path. by rewrite last_char_suffix. Qed.

Lemma bed_path_last a sample : last_char (bed_path a sample) = Some "d"%char.
Proof. unfold bed_path. by rewrite last_char_suffix. Qed.

Lemma generate_bed_file_other regions a sample (fs : gmap string file) p :
  not_bed p →
  generate_bed_file regions (bed_path a sample) fs !! p = fs !! p.
Proof.
  intros Hp. unfold generate_bed_file. apply lookup_insert_ne.
  intros <-. apply Hp, bed_path_last.
Qed.

(** *** One sample *)

Lemma sample_stats_ext (fs1 fs2 : gmap string file) a sample :
  fs1 !! mask_log_path a sample = fs2 !! mask_log_path a sample →
  fs1 !! map_log_path a sample = fs2 !! map_log_path a sample →
  sample_stats fs1 a sample = sample_stats fs2 a sample.
Proof.
  intros H1 H2.
  unfold sample_stats, os_path_exists, parse_mask_log, parse_map_log, open_read.
  by rewrite H1, H2.
Qed.

Lemma find_masked_regions_ext (fs1 fs2 : gmap string file) path :
  fs1 !! path = fs2 !! path →
  find_masked_regions SeqIO_parse fs1 path =
  find_masked_regions SeqIO_parse fs2 path.
Proof. intros H. unfold find_masked_regions, open_read. by rewrite H. Qed.

Lemma os_path_exists_None (fs : gmap string file) path :
  fs !! path = None → os_path_exists fs path = false.
Proof. intros H. unfold os_path_exists. by rewrite H. Qed.

Lemma os_path_exists_Some (fs : gmap string file) path f :
  fs !! path = Some f → os_path_exists fs path = true.
Proof. intros H. unfold os_path_exists. by rewrite H. Qed.

(** What a statistics record built from the two logs holds. *)
Lemma sample_stats_fields (fs0 : gmap string file) a sample stats :
  sample_ok fs0 a sample →
  sample_stats fs0 a sample = Ok stats →
  (fs0 !! mask_log_path a sample = None →
   ∀ f, f ∈ mask_fields → stats !! f_key f = None) ∧
  (fs0 !! map_log_path a sample = None →
   ∀ f, f ∈ map_fields → stats !! f_key f = None) ∧
  (∀ content, fs0 !! mask_log_path a sample = Some (Readable content) →
   ∀ f, f ∈ mask_fields → stats !! f_key f = field_value f content) ∧
  (∀ content, fs0 !! map_log_path a sample = Some (Readable content) →
   ∀ f, f ∈ map_fields → stats !! f_key f = field_value f content).
Proof.
  intros (Hmask & Hmap & _) Hstats.
  assert (Hkm : ∀ f, f ∈ mask_fields → f_key f ∉ f_key <$> map_fields).
  { intros f H. unfold mask_fields in H. split_fields H; cbn [f_key];
      unfold map_fields; simpl; rewrite !not_elem_of_cons;
      repeat split; try done; apply not_elem_of_nil. }
  assert (Hkp : ∀ f, f ∈ map_fields → f_key f ∉ f_key <$> mask_fields).
  { intros f H. unfold map_fields in H. split_fields H; cbn [f_key];
      unfold mask_fields; simpl; rewrite !not_elem_of_cons;
      repeat split; try done; apply not_elem_of_nil. }
  assert (∃ pm pp, stats = pp ∪ (pm ∪ ∅) ∧
    (∀ key, key ∉ f_key <$> mask_fields → pm !! key = None) ∧
    (∀ key, key ∉ f_key <$> map_fields → pp !! key = None) ∧
    (fs0 !! mask_log_path a sample = None → pm = ∅) ∧
    (fs0 !! map_log_path a sample = None → pp = ∅) ∧
    (∀ content, fs0 !! mask_log_path a sample = Some (Readable content) →
       ∀ f, f ∈ mask_fields → pm !! f_key f = field_value f content) ∧
    (∀ content, fs0 !! map_log_path a sample = Some (Readable content) →
       ∀ f, f ∈ map_fields → pp !! f_key f = field_value f content))
    as (pm & pp & -> & Hpm & Hpp & Hm0 & Hp0 & Hm1 & Hp1).
  { unfold sample_stats, dict_update in Hstats.
    destruct Hmask as [Hm|(cm & Hm & Hfm)], Hmap as [Hp|(cp & Hp & Hfp)].
    - rewrite (os_path_exists_None _ _ Hm), (os_path_exists_None _ _ Hp)
        in Hstats.
      injection Hstats as <-. exists ∅, ∅.
      split; [by rewrite !(left_id_L ∅ (∪))|].
      repeat split; try done; congruence.
    - rewrite (os_path_exists_None _ _ Hm), (os_path_exists_Some _ _ _ Hp)
        in Hstats.
      destruct (map_log_fields _ _ _ Hp Hfp) as (pp & Hpp & Hf & Hk).
      rewrite Hpp in Hstats. injection Hstats as <-. exists ∅, pp.
      split; [by rewrite !(left_id_L ∅ (∪))|].
      repeat split; try done; try congruence.
      intros content Hc. rewrite Hp in Hc. by injection Hc as <-.
    - rewrite (os_path_exists_Some _ _ _ Hm), (os_path_exists_None _ _ Hp)
        in Hstats.
      destruct (mask_log_fields _ _ _ Hm Hfm) as (pm & Hpm & Hf & Hk).
      rewrite Hpm in Hstats. injection Hstats as <-. exists pm, ∅.
      split; [by rewrite (left_id_L ∅ (∪))|].
      repeat split; try done; try congruence.
      intros content Hc. rewrite Hm in Hc. by injection Hc as <-.
    - rewrite (os_path_exists_Some _ _ _ Hm), (os_path_exists_Some _ _ _ Hp)
        in Hstats.
      destruct (mask_log_fields _ _ _ Hm Hfm) as (pm & Hpm & Hf & Hk).
      destruct (map_log_fields _ _ _ Hp Hfp) as (pp & Hpp & Hf' & Hk').
      rewrite Hpm, Hpp in Hstats. injection Hstats as <-. exists pm, pp.
      repeat split; try done; try congruence.
      + intros content Hc. rewrite Hm in Hc. by injection Hc as <-.
      + intros content Hc. rewrite Hp in Hc. by injection Hc as <-. }
  assert (Hmaskkey : ∀ f, f ∈ mask_fields →
            (pp ∪ (pm ∪ ∅)) !! f_key f = pm !! f_key f).
  { intros f Hf. rewrite lookup_union_r by (by apply Hpp, Hkm).
    by rewrite (right_id_L ∅ (∪)). }
  assert (Hmapkey : ∀ f, f ∈ map_fields →
            (pp ∪ (pm ∪ ∅)) !! f_key f = pp !! f_key f).
  { intros f Hf. apply lookup_union_l. rewrite (right_id_L ∅ (∪)).
    by apply Hpm, Hkp. }
  repeat split.
  - intros Hm f Hf. rewrite (Hmaskkey f Hf), (Hm0 Hm). apply lookup_empty.
  - intros Hp f Hf. rewrite (Hmapkey f Hf), (Hp0 Hp). apply lookup_empty.
  - intros content Hc f Hf. rewrite (Hmaskkey f Hf). by apply Hm1.
  - intros content Hc f Hf. rewrite (Hmapkey f Hf). by apply Hp1.
Qed.

Lemma sample_ok_stats (fs0 : gmap string file) a sample :
  sample_ok fs0 a sample → ∃ stats, sample_stats fs0 a sample = Ok stats.
Proof.
  intros (Hmask & Hmap & _). unfold sample_stats.
  destruct Hmask as [Hm|(cm & Hm & Hfm)], Hmap as [Hp|(cp & Hp & Hfp)].
  - rewrite (os_path_exists_None _ _ Hm), (os_path_exists_None _ _ Hp).
    by eexists.
  - rewrite (os_path_exists_None _ _ Hm), (os_path_exists_Some _ _ _ Hp).
    destruct (map_log_fields _ _ _ Hp Hfp) as (pp & -> & _). by eexists.
  - rewrite (os_path_exists_Some _ _ _ Hm), (os_path_exists_None _ _ Hp).
    destruct (mask_log_fields _ _ _ Hm Hfm) as (pm & -> & _). by eexists.
  - rewrite (os_path_exists_Some _ _ _ Hm), (os_path_exists_Some _ _ _ Hp).
    destruct (mask_log_fields _ _ _ Hm Hfm) as (pm & -> & _).
    destruct (map_log_fields _ _ _ Hp Hfp) as (pp & -> & _). by eexists.
Qed.

(** *** The loop *)

Lemma for_each_app {A} (body : A → M unit) l1 l2 st :
  for_each body (l1 ++ l2) st =
  match for_each body l1 st with
  | (st', Ok _) => for_each body l2 st'
  | (st', Raise e) => (st', Raise e)
  end.
Proof.
  revert st. induction l1 as [|x l1 IH]; intros st; simpl; [done|].
  unfold bind. destruct (body x st) as [st1 [[]|e]]; [apply IH | done].
Qed.

(** The loop writes BED files only. *)
Lemma process_sample_fs a sample st p :
  not_bed p → fs (process_sample SeqIO_parse a sample st).1 !! p = fs st !! p.
Proof.
  intros Hp. rewrite process_sample_eq. cbv zeta.
  repeat (case_match; cbn [fst fs]; try done).
  by apply generate_bed_file_other.
Qed.

Lemma for_each_fs a l : ∀ st p,
  not_bed p →
  fs (for_each (process_sample SeqIO_parse a) l st).1 !! p = fs st !! p.
Proof.
  induction l as [|s l IH]; intros st p Hp; simpl; [done|].
  unfold bind. pose proof (process_sample_fs a s st p Hp) as H1.
  destruct (process_sample SeqIO_parse a s st) as [st1 [[]|e]]; simpl in *.
  - by rewrite IH.
  - done.
Qed.

(** When the masked FASTA file of a sample exists and its round of the
    loop ends without an exception, the files it leaves are those that
    [extract_regions] leaves. *)
Lemma process_sample_extract a sample st st' :
  process_sample SeqIO_parse a sample st = (st', Ok tt) →
  os_path_exists (fs st) (masked_fasta_path a sample) = true →
  extract_regions SeqIO_parse (fs st) (masked_fasta_path a sample)
    (bed_path a sample) = Ok (fs st').
Proof.
  rewrite process_sample_eq. cbv zeta. intros H Hex. rewrite Hex in H.
  unfold extract_regions.
  destruct (sample_stats (fs st) a sample); [|by injection H].
  destruct (find_masked_regions SeqIO_parse (fs st)
              (masked_fasta_path a sample)); [|by injection H].
  by injection H as <-.
Qed.

(** One round of the loop on a sample whose inputs are absent or well
    formed. *)
Lemma process_sample_ok a (fs0 : gmap string file) sample st :
  (∀ p, not_bed p → fs st !! p = fs0 !! p) →
  sample_ok fs0 a sample →
  ∃ stats st',
    process_sample SeqIO_parse a sample st = (st', Ok tt) ∧
    sample_stats fs0 a sample = Ok stats ∧
    stats_dict st' = dict_set sample stats (stats_dict st) ∧
    (fs0 !! masked_fasta_path a sample = None →
     regions_dict st' = regions_dict st) ∧
    (∀ s, s ≠ sample →
     dict_lookup s (regions_dict st') = dict_lookup s (regions_dict st)).
Proof.
  intros Hagree Hok. destruct (sample_ok_stats _ _ _ Hok) as [stats Hstats].
  exists stats. rewrite process_sample_eq. cbv zeta.
  rewrite (sample_stats_ext (fs st) fs0)
    by (apply Hagree; (apply not_bed_mask_log || apply not_bed_map_log)).
  rewrite Hstats.
  pose proof (Hagree _ (not_bed_masked_fasta a sample)) as Hfa.
  destruct Hok as (_ & _ & [Hnone|[content Hsome]]).
  - rewrite os_path_exists_None by congruence. eexists. repeat split; done.
  - rewrite (os_path_exists_Some _ _ (Readable content)) by congruence.
    rewrite (find_masked_regions_blocks _ _ _ content) by congruence.
    eexists. repeat split; cbn [stats_dict regions_dict]; try done.
    + congruence.
    + intros s Hs. by apply dict_lookup_set_ne.
Qed.

Lemma loop_ok a (fs0 : gmap string file) l : ∀ st,
  (∀ p, not_bed p → fs st !! p = fs0 !! p) →
  (∀ s, s ∈ l → sample_ok fs0 a s) →
  ∃ st',
    for_each (process_sample SeqIO_parse a) l st = (st', Ok tt) ∧
    dict_keys (stats_dict st') =
      fold_left (λ acc s, if decide (s ∈ acc) then acc else acc ++ [s]) l
        (dict_keys (stats_dict st)) ∧
    (∀ s, s ∈ l ∨ (∃ stats, dict_lookup s (stats_dict st) = Some stats ∧
                            sample_stats fs0 a s = Ok stats) →
          ∃ stats, dict_lookup s (stats_dict st') = Some stats ∧
                   sample_stats fs0 a s = Ok stats) ∧
    (∀ s, fs0 !! masked_fasta_path a s = None →
          dict_lookup s (regions_dict st') = dict_lookup s (regions_dict st)).
Proof.
  induction l as [|x l IH]; intros st Hagree Hok.
  - exists st. repeat split; try done. by intros s [?%elem_of_nil|?].
  - destruct (process_sample_ok a fs0 x st Hagree)
      as (stats & st1 & Hstep & Hstats & Hsd & Hrd0 & Hrd1).
    { apply Hok, elem_of_cons. by left. }
    destruct (IH st1) as (st' & Hloop & Hkeys & Hq & Hr).
    { intros p Hp. rewrite <- (Hagree p Hp).
      pose proof (process_sample_fs a x st p Hp) as H. by rewrite Hstep in H. }
    { intros s Hs. apply Hok, elem_of_cons. by right. }
    exists st'. simpl. unfold bind. rewrite Hstep. split; [done|].
    split; [|split].
    + by rewrite Hkeys, Hsd, dict_keys_set.
    + intros s Hs. apply Hq.
      destruct (decide (s = x)) as [->|Hne].
      * right. exists stats. by rewrite Hsd, dict_lookup_set_eq.
      * destruct Hs as [Hs|(stats' & Hl & Hst)].
        -- apply elem_of_cons in Hs as [?|?]; [done | by left].
        -- right. exists stats'. by rewrite Hsd, dict_lookup_set_ne.
    + intros s Hs. rewrite (Hr s Hs).
      destruct (decide (s = x)) as [->|Hne]; [by rewrite (Hrd0 Hs)|].
      by apply Hrd1.
Qed.

(** C7. When every input file of the declared samples is absent, or can
    be read and holds percentages that [float] accepts, the loop of
    [main] ends without an exception; the keys of [stats_dict] are the
    sample names in the order of their first occurrence (the list itself
    when no name is repeated); every sample has a record, with no field
    of a log that does not exist and with the fields found in a log that
    exists; and a sample whose masked FASTA file does not exist has the
    empty list for [regions_dict.get(sample, [])]. *)
Theorem main_loop_missing_inputs (a : args) (fs0 : gmap string file) :
  (∀ s, s ∈ samples a → sample_ok fs0 a s) →
  ∃ st,
    main_loop SeqIO_parse a fs0 = (st, Ok tt) ∧
    dict_keys (stats_dict st) = first_occurrences (samples a) ∧
    (NoDup (samples a) → dict_keys (stats_dict st) = samples a) ∧
    ∀ s, s ∈ samples a →
      ∃ stats,
        dict_lookup s (stats_dict st) = Some stats ∧
        (fs0 !! mask_log_path a s = None →
         ∀ f, f ∈ mask_fields → stats !! f_key f = None) ∧
        (fs0 !! map_log_path a s = None →
         ∀ f, f ∈ map_fields → stats !! f_key f = None) ∧
        (∀ content, fs0 !! mask_log_path a s = Some (Readable content) →
         ∀ f, f ∈ mask_fields → stats !! f_key f = field_value f content) ∧
        (∀ content, fs0 !! map_log_path a s = Some (Readable content) →
         ∀ f, f ∈ map_fields → stats !! f_key f = field_value f content) ∧
        (fs0 !! masked_fasta_path a s = None →
         dict_get s [] (regions_dict st) = []).
Proof.
  intros Hok. unfold main_loop.
  destruct (loop_ok a fs0 (samples a)
              {| stats_dict := []; regions_dict := []; fs := fs0; stdout := [] |})
    as (st & Hloop & Hkeys & Hq & Hr); [done..|].
  exists st. split; [done|]. split; [done|].
  split; [intros Hnd; by rewrite Hkeys, (first_occurrences_fold _ [])|].
  intros s Hs. destruct (Hq s (or_introl Hs)) as (stats & Hl & Hstats).
  exists stats. split; [done|].
  destruct (sample_stats_fields fs0 a s stats (Hok s Hs) Hstats)
    as (H1 & H2 & H3 & H4).
  repeat split; try done.
  intros Hnone. unfold dict_get. by rewrite (Hr s Hnone).
Qed.

Lemma sample_stats_unreadable (fs0 : gmap string file) a sample failing :
  (fs0 !! mask_log_path a sample = Some Unreadable ∧
   failing = mask_log_path a sample) ∨
  (log_ok mask_fields fs0 (mask_log_path a sample) ∧
   fs0 !! map_log_path a sample = Some Unreadable ∧
   failing = map_log_path a sample) →
  sample_stats fs0 a sample = Raise (OSError failing).
Proof.
  unfold sample_stats.
  intros [[Hm ->]|([Hm|(c & Hm & Hfl)] & Hp & ->)].
  - rewrite (os_path_exists_Some _ _ _ Hm).
    unfold parse_mask_log, open_read. by rewrite Hm.
  - rewrite (os_path_exists_None _ _ Hm), (os_path_exists_Some _ _ _ Hp).
    unfold parse_map_log, open_read. by rewrite Hp.
  - rewrite (os_path_exists_Some _ _ _ Hm), (os_path_exists_Some _ _ _ Hp).
    destruct (mask_log_fields _ _ _ Hm Hfl) as (pm & -> & _).
    unfold parse_map_log, open_read. by rewrite Hp.
Qed.

(** C6 (amended). When a log of one sample exists but cannot be read,
    and the inputs of the samples before it are absent or well formed,
    the [OSError] of [open], which names the path of that log, leaves the
    loop of [main]: the samples before it have been processed, the
    failing sample has only printed its first line, and no sample after
    it is processed. *)
Theorem main_loop_unreadable_log (a : args) (fs0 : gmap string file)
    before sample after failing :
  samples a = before ++ sample :: after →
  (∀ s, s ∈ before → sample_ok fs0 a s) →
  (fs0 !! mask_log_path a sample = Some Unreadable ∧
   failing = mask_log_path a sample) ∨
  (log_ok mask_fields fs0 (mask_log_path a sample) ∧
   fs0 !! map_log_path a sample = Some Unreadable ∧
   failing = map_log_path a sample) →
  ∃ st,
    for_each (process_sample SeqIO_parse a) before
      {| stats_dict := []; regions_dict := []; fs := fs0; stdout := [] |}
      = (st, Ok tt) ∧
    main_loop SeqIO_parse a fs0 =
      ({| stats_dict := stats_dict st; regions_dict := regions_dict st;
          fs := fs st;
          stdout := stdout st ++ ["Processing sample: " +:+ sample] |},
       Raise (OSError failing)).
Proof.
  intros Hsamples Hok Hbad. unfold main_loop. rewrite Hsamples, for_each_app.
  destruct (loop_ok a fs0 before
              {| stats_dict := []; regions_dict := []; fs := fs0; stdout := [] |})
    as (st & Hloop & _); [done..|].
  exists st. split; [done|]. rewrite Hloop. simpl. unfold bind.
  rewrite process_sample_eq. cbv zeta.
  assert (Hagree : ∀ p, not_bed p → fs st !! p = fs0 !! p).
  { intros p Hp.
    pose proof (for_each_fs a before
      {| stats_dict := []; regions_dict := []; fs := fs0; stdout := [] |} p Hp)
      as H.
    by rewrite Hloop in H. }
  rewrite (sample_stats_ext (fs st) fs0)
    by (apply Hagree; (apply not_bed_mask_log || apply not_bed_map_log)).
  by rewrite (sample_stats_unreadable fs0 a sample failing Hbad).
Qed.

End MainLoop.

(** C6 (counterexample).  The masking log of sample [a] exists and cannot
    be read; the files of sample [b] are in order.  The run on [a; b]
    ends with the [OSError] of [a] and has done nothing for [b]: no
    record, no BED file, no printed line.  Alone, [b] is processed. *)
Lemma main_loop_aborts_at_unreadable_log :
  main_loop one_record (demo_args ["a"; "b"]) demo_fs =
    ({| stats_dict := []; regions_dict := []; fs := demo_fs;
        stdout := ["Processing sample: a"] |},
     Raise (OSError "logs/a_mask.log")) ∧
  ∃ st, main_loop one_record (demo_args ["b"]) demo_fs = (st, Ok tt) ∧
        dict_keys (stats_dict st) = ["b"] ∧
        is_Some (fs st !! "out/b_masked_regions.bed").
Proof.
  split; [vm_compute; reflexivity|].
  eexists. split; [vm_compute; reflexivity|].
  split; [reflexivity | vm_compute; by eexists].
Qed.

(** * Examples *)

Ltac floats_accepted_by_computation fields :=
  let f := fresh "f" in
  let m := fresh "m" in
  let Hin := fresh "Hin" in
  let Hfl := fresh "Hfl" in
  let Hs := fresh "Hs" in
  intros f m Hin Hfl Hs; unfold fields in Hin; split_fields Hin;
  try discriminate Hfl; cbn [f_pat f_group] in *; vm_compute in Hs;
  first [discriminate Hs | injection Hs as <-; vm_compute; reflexivity].

Lemma demo_b_mask_floats : floats_accepted mask_fields demo_b_mask_log.
Proof. floats_accepted_by_computation mask_fields. Qed.

Lemma demo_b_map_floats : floats_accepted map_fields demo_b_mask_log.
Proof. floats_accepted_by_computation map_fields. Qed.

Lemma demo_c_map_floats : floats_accepted map_fields demo_c_map_log.
Proof. floats_accepted_by_computation map_fields. Qed.

Lemma demo_sample_ok_b names : sample_ok demo_fs (demo_args names) "b".
Proof.
  split; [|split].
  - right. exists demo_b_mask_log. split; [reflexivity | apply demo_b_mask_floats].
  - left. reflexivity.
  - right. by exists "ATNNNCGNAT".
Qed.

Lemma demo_sample_ok_c names : sample_ok demo_fs (demo_args names) "c".
Proof.
  split; [|split].
  - left. reflexivity.
  - right. exists demo_c_map_log. split; [reflexivity | apply demo_c_map_floats].
  - right. by exists "nnNN".
Qed.

Lemma find_masked_regions_intervals_witness :
  demo_fs !! "res/b_masked.fasta" = Some (Readable "ATNNNCGNAT") ∧
  ∃ blocks,
    find_masked_regions one_record demo_fs "res/b_masked.fasta"
      = Ok (concat blocks) ∧
    Forall2 (λ record block,
               Forall (λ r, r_chrom r = rec_id record) block ∧
               intervals_ok (len (rec_seq record)) block)
            (one_record "ATNNNCGNAT") blocks.
Proof.
  split; [reflexivity|].
  apply (find_masked_regions_intervals one_record demo_fs). reflexivity.
Defined.

Lemma find_masked_regions_masked_positions_witness :
  demo_fs !! "res/b_masked.fasta" = Some (Readable "ATNNNCGNAT") ∧
  ∃ blocks,
    find_masked_regions one_record demo_fs "res/b_masked.fasta"
      = Ok (concat blocks) ∧
    Forall2 (λ record block,
               (∀ j : Z, covered j block ↔
                  0 ≤ j ∧ ∃ c, String.get (Z.to_nat j) (rec_seq record) = Some c ∧
                               masked_letter c) ∧
               (rec_seq record = "ATNNNCGNAT" →
                block =
                [ {| r_chrom := rec_id record; r_start := 2; r_end := 5;
                     r_length := 3 |};
                  {| r_chrom := rec_id record; r_start := 7; r_end := 8;
                     r_length := 1 |} ]))
            (one_record "ATNNNCGNAT") blocks.
Proof.
  split; [reflexivity|].
  apply (find_masked_regions_masked_positions one_record demo_fs). reflexivity.
Defined.

Lemma find_masked_regions_run_at_end_witness :
  demo_fs !! "res/c_masked.fasta" = Some (Readable "nnNN") ∧
  ∃ blocks,
    find_masked_regions one_record demo_fs "res/c_masked.fasta"
      = Ok (concat blocks) ∧
    Forall2 (λ record block,
               (∀ c, last_char (rec_seq record) = Some c → masked_letter c →
                  ∃ earlier s,
                    block = earlier ++
                      [mk_region (rec_id record) s (len (rec_seq record))] ∧
                    0 ≤ s < len (rec_seq record)) ∧
               (rec_seq record ≠ "" →
                (∀ n c, String.get n (rec_seq record) = Some c →
                        masked_letter c) →
                block = [mk_region (rec_id record) 0 (len (rec_seq record))]))
            (one_record "nnNN") blocks.
Proof.
  split; [reflexivity|].
  apply (find_masked_regions_run_at_end one_record demo_fs). reflexivity.
Defined.

Lemma parsers_fields_per_pattern_witness :
  demo_fs !! "logs/b_mask.log" = Some (Readable demo_b_mask_log) ∧
  floats_accepted mask_fields demo_b_mask_log ∧
  floats_accepted map_fields demo_b_mask_log ∧
  (∃ stats, parse_mask_log demo_fs "logs/b_mask.log" = Ok stats ∧
     (∀ f, f ∈ mask_fields → stats !! f_key f = field_value f demo_b_mask_log) ∧
     (∀ key, key ∉ f_key <$> mask_fields → stats !! key = None)) ∧
  (∃ stats, parse_map_log demo_fs "logs/b_mask.log" = Ok stats ∧
     (∀ f, f ∈ map_fields → stats !! f_key f = field_value f demo_b_mask_log) ∧
     (∀ key, key ∉ f_key <$> map_fields → stats !! key = None)) ∧
  (∀ f, f ∈ mask_fields ++ map_fields →
     (¬ occurs (f_label f) demo_b_mask_log →
      field_value f demo_b_mask_log = None) ∧
     (re_search (f_pat f) demo_b_mask_log = None →
      field_value f demo_b_mask_log = None) ∧
     (∀ m, re_search (f_pat f) demo_b_mask_log = Some m →
           field_value f demo_b_mask_log = value_of f m)).
Proof.
  split; [reflexivity|].
  split; [apply demo_b_mask_floats|]. split; [apply demo_b_map_floats|].
  destruct (parsers_fields_per_pattern demo_fs "logs/b_mask.log"
              demo_b_mask_log eq_refl) as (H1 & H2 & H3).
  split; [exact (H1 demo_b_mask_floats)|].
  split; [exact (H2 demo_b_map_floats) | exact H3].
Defined.

Lemma parse_mask_log_total_masked_witness :
  demo_fs !! "logs/b_mask.log" = Some (Readable demo_b_mask_log) ∧
  demo_fs !! "logs/c_map.log" = Some (Readable demo_c_map_log) ∧
  ¬ occurs "Total Bases Masked:" demo_c_map_log ∧
  (∃ stats, parse_mask_log demo_fs "logs/b_mask.log" = Ok stats ∧
     stats !! "total_masked_bases" = Some (VInt 150) ∧
     stats !! "masking_percentage" = Some (VFloat (Qmake 15 1))) ∧
  (∃ stats, parse_mask_log demo_fs "logs/c_map.log" = Ok stats ∧
     stats !! "total_masked_bases" = None ∧
     stats !! "masking_percentage" = None) ∧
  (∀ stats, parse_mask_log demo_fs "logs/b_mask.log" = Ok stats →
     (is_Some (stats !! "total_masked_bases") ↔
      is_Some (stats !! "masking_percentage"))).
Proof.
  assert (Hno : ¬ occurs "Total Bases Masked:" demo_c_map_log).
  { intros H%occursb_spec. vm_compute in H. discriminate H. }
  split; [reflexivity|]. split; [reflexivity|]. split; [exact Hno|].
  destruct (parse_mask_log_total_masked demo_fs "logs/b_mask.log"
              demo_b_mask_log eq_refl) as (H1 & _ & H3).
  destruct (parse_mask_log_total_masked demo_fs "logs/c_map.log"
              demo_c_map_log eq_refl) as (_ & H2 & _).
  split; [|split; [exact (H2 (or_introl Hno)) | exact H3]].
  apply (H1 ("Ref Bases:   1000" +:+ NL) (NL +:+ "Ref Bases: 2000" +:+ NL));
    [reflexivity|].
  apply starts_inside_spec. vm_compute. reflexivity.
Defined.

Lemma main_loop_unreadable_log_witness :
  samples (demo_args ["b"; "a"; "c"]) = ["b"] ++ "a" :: ["c"] ∧
  (∀ s, s ∈ ["b"] → sample_ok demo_fs (demo_args ["b"; "a"; "c"]) s) ∧
  demo_fs !! mask_log_path (demo_args ["b"; "a"; "c"]) "a" = Some Unreadable ∧
  ∃ st,
    for_each (process_sample one_record (demo_args ["b"; "a"; "c"])) ["b"]
      {| stats_dict := []; regions_dict := []; fs := demo_fs; stdout := [] |}
      = (st, Ok tt) ∧
    main_loop one_record (demo_args ["b"; "a"; "c"]) demo_fs =
      ({| stats_dict := stats_dict st; regions_dict := regions_dict st;
          fs := fs st;
          stdout := stdout st ++ ["Processing sample: " +:+ "a"] |},
       Raise (OSError "logs/a_mask.log")).
Proof.
  assert (Hb : ∀ s, s ∈ ["b"] → sample_ok demo_fs (demo_args ["b"; "a"; "c"]) s).
  { intros s ->%list_elem_of_singleton. apply demo_sample_ok_b. }
  split; [reflexivity|]. split; [exact Hb|]. split; [reflexivity|].
  apply (main_loop_unreadable_log one_record (demo_args ["b"; "a"; "c"])
           demo_fs ["b"] "a" ["c"] "logs/a_mask.log");
    [reflexivity | exact Hb | left; split; reflexivity].
Defined.

Lemma main_loop_missing_inputs_witness :
  (∀ s, s ∈ samples (demo_args ["b"; "c"]) →
        sample_ok demo_fs (demo_args ["b"; "c"]) s) ∧
  ∃ st,
    main_loop one_record (demo_args ["b"; "c"]) demo_fs = (st, Ok tt) ∧
    dict_keys (stats_dict st) = first_occurrences ["b"; "c"] ∧
    (NoDup ["b"; "c"] → dict_keys (stats_dict st) = ["b"; "c"]) ∧
    ∀ s, s ∈ ["b"; "c"] →
      ∃ stats,
        dict_lookup s (stats_dict st) = Some stats ∧
        (demo_fs !! mask_log_path (demo_args ["b"; "c"]) s = None →
         ∀ f, f ∈ mask_fields → stats !! f_key f = None) ∧
        (demo_fs !! map_log_path (demo_args ["b"; "c"]) s = None →
         ∀ f, f ∈ map_fields → stats !! f_key f = None) ∧
        (∀ content,
           demo_fs !! mask_log_path (demo_args ["b"; "c"]) s
             = Some (Readable content) →
           ∀ f, f ∈ mask_fields → stats !! f_key f = field_value f content) ∧
        (∀ content,
           demo_fs !! map_log_path (demo_args ["b"; "c"]) s
             = Some (Readable content) →
           ∀ f, f ∈ map_fields → stats !! f_key f = field_value f content) ∧
        (demo_fs !! masked_fasta_path (demo_args ["b"; "c"]) s = None →
         dict_get s [] (regions_dict st) = []).
Proof.
  assert (Hok : ∀ s, s ∈ samples (demo_args ["b"; "c"]) →
                     sample_ok demo_fs (demo_args ["b"; "c"]) s).
  { intros s Hs. simpl in Hs.
    apply elem_of_cons in Hs as [->|Hs]; [apply demo_sample_ok_b|].
    apply list_elem_of_singleton in Hs as ->. apply demo_sample_ok_c. }
  split; [exact Hok|].
  exact (main_loop_missing_inputs one_record (demo_args ["b"; "c"]) demo_fs Hok).
Defined.

Lemma generate_bed_file_lines_witness :
  ∃ lines,
    generate_bed_file [mk_region "chr1" 2 5; mk_region "chr1" 7 8]
      "out/b_masked_regions.bed" demo_fs !! "out/b_masked_regions.bed" =
      Some (Readable (bed_header_1 +:+ bed_header_2 +:+ concat_strings lines)) ∧
    lines =
      [ "chr1" +:+ TAB +:+ "2" +:+ TAB +:+ "5" +:+ TAB +:+ "masked_region_1" +:+
        TAB +:+ "3" +:+ TAB +:+ "." +:+ NL;
        "chr1" +:+ TAB +:+ "7" +:+ TAB +:+ "8" +:+ TAB +:+ "masked_region_2" +:+
        TAB +:+ "1" +:+ TAB +:+ "." +:+ NL ].
Proof.
  destruct (generate_bed_file_lines [mk_region "chr1" 2 5; mk_region "chr1" 7 8]
              "out/b_masked_regions.bed" demo_fs) as (lines & Hfile & Hlen & Hl).
  exists lines. split; [exact Hfile|].
  destruct lines as [|l1 [|l2 [|l3 lines]]]; try discriminate Hlen.
  pose proof (Hl 0%nat _ eq_refl) as H0. pose proof (Hl 1%nat _ eq_refl) as H1.
  simpl in H0, H1. injection H0 as ->. injection H1 as ->. reflexivity.
Defined.

Lemma extract_regions_deterministic_witness :
  demo_fs !! "res/b_masked.fasta" = Some (Readable "ATNNNCGNAT") ∧
  <["out/b.bed" := Readable "stale"]> demo_fs !! "res/b_masked.fasta"
    = Some (Readable "ATNNNCGNAT") ∧
  ∃ fs1' fs2' text,
    extract_regions one_record demo_fs "res/b_masked.fasta" "out/b.bed"
      = Ok fs1' ∧
    extract_regions one_record (<["out/b.bed" := Readable "stale"]> demo_fs)
      "res/b_masked.fasta" "out/b.bed" = Ok fs2' ∧
    fs1' !! "out/b.bed" = Some (Readable text) ∧
    fs2' !! "out/b.bed" = Some (Readable text) ∧
    ("out/b.bed" ≠ "res/b_masked.fasta" →
     extract_regions one_record fs1' "res/b_masked.fasta" "out/b.bed" = Ok fs1').
Proof.
  split; [reflexivity|]. split; [reflexivity|].
  apply (extract_regions_deterministic one_record demo_fs
           (<["out/b.bed" := Readable "stale"]> demo_fs)
           "res/b_masked.fasta" "out/b.bed" "ATNNNCGNAT"); reflexivity.
Defined.

Lemma parsers_use_leftmost_match_witness :
  demo_fs !! "logs/b_mask.log" = Some (Readable demo_b_mask_log) ∧
  demo_fs !! "logs/c_map.log" = Some (Readable demo_c_map_log) ∧
  first_match ref_bases_re demo_b_mask_log ["1000"] ∧
  first_match mapped_re demo_c_map_log ["12.5"; "5"] ∧
  (∃ stats, parse_mask_log demo_fs "logs/b_mask.log" = Ok stats ∧
            stats !! "total_bases" = Some (VInt 1000)) ∧
  (∃ stats, parse_map_log demo_fs "logs/c_map.log" = Ok stats ∧
            stats !! "mapped_percentage" = Some (VFloat (Qmake 25 2)) ∧
            stats !! "mapped_reads" = Some (VInt 5)).
Proof.
  assert (Hm : first_match ref_bases_re demo_b_mask_log ["1000"])
    by (apply first_match_here; vm_compute; reflexivity).
  assert (Hp : first_match mapped_re demo_c_map_log ["12.5"; "5"]).
  { apply re_search_first_match. vm_compute. reflexivity. }
  split; [reflexivity|]. split; [reflexivity|].
  split; [exact Hm|]. split; [exact Hp|].
  destruct (parsers_use_leftmost_match demo_fs "logs/b_mask.log"
              demo_b_mask_log eq_refl) as [H _].
  destruct (parsers_use_leftmost_match demo_fs "logs/c_map.log"
              demo_c_map_log eq_refl) as [_ H'].
  split.
  - destruct (parse_mask_log demo_fs "logs/b_mask.log") as [stats|e] eqn:E.
    + exists stats. split; [reflexivity|].
      apply (H (Field "total_bases" "Ref Bases:" ref_bases_re 1 false) ["1000"]);
        [unfold mask_fields; apply elem_of_cons; by left | exact Hm].
    + vm_compute in E. discriminate E.
  - destruct (parse_map_log demo_fs "logs/c_map.log") as [stats|e] eqn:E.
    + exists stats. split; [reflexivity|].
      assert (Hin1 : Field "mapped_percentage" "mapped:" mapped_re 1 true
                     ∈ map_fields)
        by (unfold map_fields; apply elem_of_cons; right;
            apply elem_of_cons; by left).
      assert (Hin2 : Field "mapped_reads" "mapped:" mapped_re 2 false
                     ∈ map_fields)
        by (unfold map_fields; do 2 (apply elem_of_cons; right);
            apply elem_of_cons; by left).
      destruct (H' _ _ Hin1 Hp) as [H1 _]. destruct (H' _ _ Hin2 Hp) as [H2 _].
      split.
      * etransitivity; [exact H1|]. vm_compute. reflexivity.
      * etransitivity; [exact H2|]. vm_compute. reflexivity.
    + vm_compute in E. discriminate E.
Defined.
